(** * QAOA for the tail assignment problem: a model of [tailassignment_oop.py]

    The development embeds the class [QAOATailAssignment] of
    [tailassignment_oop.py]: its cost model ([cost], [is_solution]), the
    gate-emitting methods ([apply_cost], [apply_exco], [apply_hamiltonian],
    [mix_states], [createCircuit]) and the statistics extractors
    ([successProbability], [measurementStatistics]).

    Conventions of the model.
    - Numbers are exact rationals ([Q]); equalities between computed numbers
      are stated with [==] ([Qeq]).  Rounding of IEEE doubles is not modelled.
    - A numpy 2-d array is a list of rows together with its column count, so
      that [np.shape] is defined also for an array with no rows.
    - A Python exception is a value [Raise e] of the type [result].
    - The circuit [self.qc] is the only attribute the methods mutate; it is
      threaded explicitly through the monad [Circ]. *)

From Stdlib Require Import String Ascii Bool Arith ZArith NArith Lia List.
From Stdlib Require Import QArith Qring Qfield Lqa Qround.
From Stdlib Require Import Setoid Morphisms.
Import ListNotations.

Local Open Scope string_scope.
Local Open Scope list_scope.
Local Open Scope Q_scope.

(** ** Exceptions and fallible results *)

Inductive exn : Type :=
| ValueError
| IndexError
| ZeroDivisionError
| NameError (name : string)
| AttributeError (name : string)
| BackendError
| NotRational.

Inductive result (A : Type) : Type :=
| Ok (a : A)
| Raise (e : exn).

Arguments Ok {A} a.
Arguments Raise {A} e.

Definition rbind {A B} (m : result A) (k : A -> result B) : result B :=
  match m with
  | Ok a => k a
  | Raise e => Raise e
  end.

Declare Scope result_scope.
Delimit Scope result_scope with result.
Notation "x <- m ;; k" := (rbind m (fun x => k))
  (at level 61, m at next level, right associativity) : result_scope.
Local Open Scope result_scope.

(** [map] over a list with a fallible function, left to right. *)
Fixpoint mapM {A B} (f : A -> result B) (l : list A) : result (list B) :=
  match l with
  | [] => Ok []
  | a :: l' =>
      b <- f a ;;
      bs <- mapM f l' ;;
      Ok (b :: bs)
  end.

(** ** Arrays *)

(** A 2-d numpy array of shape [(length rows, ncols)]. *)
Record ndarray2 : Type := mk_ndarray2 {
  rows : list (list Q);
  ncols : nat
}.

Definition nrows (M : ndarray2) : nat := length (rows M).

Definition wf_ndarray2 (M : ndarray2) : Prop :=
  Forall (fun row => length row = ncols M) (rows M).

(** [np.sum] of a 1-d array. *)
Fixpoint np_sum (v : list Q) : Q :=
  match v with
  | [] => 0
  | a :: v' => a + np_sum v'
  end.

(** Elementwise product of two 1-d arrays of the same length. *)
Fixpoint mul_elementwise (u v : list Q) : list Q :=
  match u, v with
  | a :: u', b :: v' => a * b :: mul_elementwise u' v'
  | _, _ => []
  end.

(** [u @ v] for two 1-d arrays: the lengths must agree. *)
Definition matmul_vv (u v : list Q) : result Q :=
  if Nat.eqb (length u) (length v)
  then Ok (np_sum (mul_elementwise u v))
  else Raise ValueError.

(** [M @ v] for a 2-d array and a 1-d array: [ncols M] must be [len v]. *)
Definition matmul_mv (M : ndarray2) (v : list Q) : result (list Q) :=
  if Nat.eqb (ncols M) (length v)
  then Ok (map (fun row => np_sum (mul_elementwise row v)) (rows M))
  else Raise ValueError.

(** [M * a] for a 2-d array and a 1-d array, with numpy's broadcasting:
    the trailing dimensions must be equal, or one of them must be 1. *)
Definition broadcast_mul (M : ndarray2) (a : list Q) : result (list (list Q)) :=
  if Nat.eqb (ncols M) (length a) then
    Ok (map (fun row => mul_elementwise row a) (rows M))
  else if Nat.eqb (length a) 1 then
    Ok (map (fun row => map (fun v => v * nth 0 a 0) row) (rows M))
  else if Nat.eqb (ncols M) 1 then
    Ok (map (fun row => map (fun b => nth 0 row 0 * b) a) (rows M))
  else Raise ValueError.

(** [np.sum(P, 1)]: the sum of every row. *)
Definition np_sum_axis1 (P : list (list Q)) : list Q := map np_sum P.

(** [np.all] of a boolean array. *)
Definition np_all (bs : list bool) : bool := forallb (fun b => b) bs.

(** [M[:, r]]: column [r]. *)
Definition column (M : ndarray2) (r : nat) : list Q :=
  map (fun row => nth r row 0) (rows M).

(** [c * v] for a scalar and a 1-d array. *)
Definition scale (c : Q) (v : list Q) : list Q := map (fun a => c * a) v.

(** [v - c] for a 1-d array and a scalar. *)
Definition sub_scalar (v : list Q) (c : Q) : list Q := map (fun a => a - c) v.

(** [u @ v] where the shapes are known to agree (both are columns or row
    sums of the same matrix). *)
Definition dot (u v : list Q) : Q := np_sum (mul_elementwise u v).

(** ** Bit strings *)

(** [int(c)] for a one-character string: a decimal digit, or [ValueError].
    The characters of the model are bytes: the decimal digits that [int]
    accepts outside ASCII are not represented. *)
Definition int_of_char (c : ascii) : result Z :=
  let n := nat_of_ascii c in
  if andb (Nat.leb 48 n) (Nat.leb n 57)
  then Ok (Z.of_nat (n - 48))
  else Raise ValueError.

(** [np.array(list(map(int, binstring[::-1])))] *)
Definition reversed_bits (binstring : string) : result (list Q) :=
  mapM (fun c => z <- int_of_char c ;; Ok (inject_Z z))
       (rev (list_ascii_of_string binstring)).

Definition is_bit (c : ascii) : bool :=
  orb (Ascii.eqb c "0"%char) (Ascii.eqb c "1"%char).

Definition is_bitstring (b : string) : bool :=
  forallb is_bit (list_ascii_of_string b).

(** ** The object *)

(** The attributes of a [QAOATailAssignment] that the methods read.
    [usebarrier] is [options['usebarrier']], [backend_name] is
    [self.backend.name()], and [depth] and [state_strings] are attributes
    maintained by the base class. *)
Record QAOATailAssignment : Type := mk_QAOATailAssignment {
  FR : ndarray2;
  CR : list Q;
  mu : Q;
  usebarrier : bool;
  backend_name : string;
  depth : nat;
  state_strings : list string
}.

(** [self.F, self.R = np.shape(self.FR)] *)
Definition F (self : QAOATailAssignment) : nat := nrows (FR self).
Definition R (self : QAOATailAssignment) : nat := ncols (FR self).

(** The data invariant: [FR] is rectangular and [CR] has one entry per
    column of [FR]. *)
Definition wf (self : QAOATailAssignment) : Prop :=
  wf_ndarray2 (FR self) /\ length (CR self) = R self.

(** ** Cost model *)

Definition cost (self : QAOATailAssignment) (binstring : string) : result Q :=
  x <- reversed_bits binstring ;;
  cx <- matmul_vv (CR self) x ;;
  fx <- matmul_mv (FR self) x ;;
  Ok (- (cx + mu self * np_sum (map (fun y => (1 - y) ^ 2) fx))).

Definition is_solution (self : QAOATailAssignment) (binstring : string)
  : result bool :=
  a <- reversed_bits binstring ;;
  p <- broadcast_mul (FR self) a ;;
  Ok (np_all (map (fun s => Qeq_bool (s - 1) 0) (np_sum_axis1 p))).

(** ** Circuits *)

(** The gates the class emits. [rx_all] and [measure_all] act on the whole
    register ([self.qc.rx(theta, self.q_register)] and
    [self.qc.measure(self.q_register, self.c_register)]). *)
Inductive Gate : Type :=
| rz (theta : Q) (qubit : nat)
| cx (control target : nat)
| rx_all (theta : Q)
| barrier
| measure_all.

Definition QuantumCircuit : Type := list Gate.

(** Computations that extend [self.qc] and may raise. *)
Definition Circ (A : Type) : Type := QuantumCircuit -> result A * QuantumCircuit.

Definition cret {A} (a : A) : Circ A := fun qc => (Ok a, qc).

Definition cbind {A B} (m : Circ A) (k : A -> Circ B) : Circ B :=
  fun qc =>
    match m qc with
    | (Ok a, qc') => k a qc'
    | (Raise e, qc') => (Raise e, qc')
    end.

Definition lift {A} (r : result A) : Circ A := fun qc => (r, qc).

Definition emit (g : Gate) : Circ unit := fun qc => (Ok tt, qc ++ [g]).

Definition get_qc : Circ QuantumCircuit := fun qc => (Ok qc, qc).

Declare Scope circ_scope.
Delimit Scope circ_scope with circ.
Notation "x <- m ;; k" := (cbind m (fun x => k))
  (at level 61, m at next level, right associativity) : circ_scope.
Notation "m ;; k" := (cbind m (fun _ => k))
  (at level 61, right associativity) : circ_scope.

(** [for a in l: body(a)] *)
Fixpoint for_ {A} (l : list A) (body : A -> Circ unit) : Circ unit :=
  match l with
  | [] => cret tt
  | a :: l' => (body a ;; for_ l' body)%circ
  end.

(** [range(a, b)] *)
Definition range (a b : nat) : list nat := seq a (b - a).

(** [v[i]] for a 1-d array and a non-negative index. *)
Definition getitem {A} (v : list A) (i : nat) : result A :=
  match nth_error v i with
  | Some a => Ok a
  | None => Raise IndexError
  end.

(** [l[start::step]] *)
Fixpoint slice_step {A} (step skip : nat) (l : list A) : list A :=
  match l with
  | [] => []
  | a :: l' =>
      match skip with
      | O => a :: slice_step step (step - 1) l'
      | S k => slice_step step k l'
      end
  end.

(** [np.sum(self.FR, axis = 1) - 2] *)
Definition rowsum_minus_2 (self : QAOATailAssignment) : list Q :=
  sub_scalar (np_sum_axis1 (rows (FR self))) 2.

(** The coupling part shared by [apply_exco] and [apply_hamiltonian]:
    the inner loop over [r_]. *)
Definition couple (self : QAOATailAssignment) (gamma : Q) (r : nat) : Circ unit :=
  for_ (range (r + 1) (R self)) (fun r_ =>
    let Jrr_ := dot (scale (1 # 2) (column (FR self) r)) (column (FR self) r_) in
    emit (cx r r_) ;;
    emit (rz (gamma * Jrr_) r_) ;;
    emit (cx r r_))%circ.

Definition mix_states (self : QAOATailAssignment) (beta : Q) : Circ unit :=
  emit (rx_all (- (2) * beta)).

Definition apply_exco (self : QAOATailAssignment) (gamma : Q) : Circ unit :=
  for_ (range 0 (R self)) (fun r =>
    let hr := dot (scale ((1 # 2) * mu self) (column (FR self) r))
                  (rowsum_minus_2 self) in
    emit (rz (gamma * hr) r) ;;
    couple self gamma r)%circ.

Definition apply_cost (self : QAOATailAssignment) (gamma : Q) : Circ unit :=
  for_ (range 0 (R self)) (fun r =>
    c <- lift (getitem (CR self) r) ;;
    let hr := (1 # 2) * c in
    emit (rz (gamma * hr) r))%circ.

Definition apply_hamiltonian (self : QAOATailAssignment) (gamma : Q) : Circ unit :=
  for_ (range 0 (R self)) (fun r =>
    c <- lift (getitem (CR self) r) ;;
    let hr := (1 # 2) * c
              + dot (scale ((1 # 2) * mu self) (column (FR self) r))
                    (rowsum_minus_2 self) in
    emit (rz (gamma * hr) r) ;;
    couple self gamma r)%circ.

(** ** Mode selection *)

(** [s.split(sep)] for a one-character separator. *)
Fixpoint py_split (sep : ascii) (s : string) : list string :=
  match s with
  | EmptyString => [EmptyString]
  | String c s' =>
      if Ascii.eqb c sep then EmptyString :: py_split sep s'
      else match py_split sep s' with
           | [] => [String c EmptyString]
           | w :: ws => String c w :: ws
           end
  end.

(** [x in l] for a list of strings. *)
Definition py_in (x : string) (l : list string) : bool :=
  existsb (String.eqb x) l.

(** ["statevector" in self.backend.name().split('_')] *)
Definition statevector_backend (self : QAOATailAssignment) : bool :=
  py_in "statevector" (py_split "_"%char (backend_name self)).

(** [sub in s] for two strings: [sub] occurs as a substring of [s]. *)
Fixpoint py_contains (sub s : string) : bool :=
  if String.prefix sub s then true
  else match s with
       | EmptyString => false
       | String _ s' => py_contains sub s'
       end.

(** ** Building the circuit *)

Section CreateCircuit.

(** [self.initial_state(n)] is a method of the base class: it prepares
    [self.qc] in some way that this file does not fix. *)
Variable initial_state : nat -> Circ unit.

(** The body of the loop over [d]. *)
Definition layer (self : QAOATailAssignment) (gammas betas : list Q)
  (d : nat) : Circ unit :=
  (gamma <- lift (getitem gammas d) ;;
   beta <- lift (getitem betas d) ;;
   apply_hamiltonian self gamma ;;
   (if usebarrier self then emit barrier else cret tt) ;;
   mix_states self beta ;;
   (if usebarrier self then emit barrier else cret tt))%circ.

(** Everything before the test on the backend's name. *)
Definition ansatz (self : QAOATailAssignment) (params : list Q)
  : Circ unit :=
  (initial_state (R self) ;;
   let gammas := slice_step 2 0 params in
   let betas := slice_step 2 1 params in
   for_ (range 0 (depth self)) (layer self gammas betas))%circ.

Definition createCircuit (self : QAOATailAssignment) (params : list Q)
  : Circ QuantumCircuit :=
  (ansatz self params ;;
   (if negb (statevector_backend self) then emit measure_all else cret tt) ;;
   get_qc)%circ.

End CreateCircuit.

(** ** Execution results *)

(** One block of [job.result().results].  The keys of [counts] are the
    integers that [int(hexkey, 0)] decodes from the dictionary's keys, in
    the dictionary's iteration order; [counts] is [None] when the block has
    no [counts] attribute. *)
Record ExperimentResult : Type := mk_ExperimentResult {
  shots : nat;
  counts : option (list (N * nat))
}.

(** A finished job.  [statevector_probs] is the outcome of
    [(np.abs(job.result().get_statevector()))**2]: the probability of every
    basis state, or the error of the backend when the result holds no
    statevector. *)
Record Job : Type := mk_Job {
  results : list ExperimentResult;
  statevector_probs : result (list Q)
}.

(** [result.data.counts] *)
Definition data_counts (r : ExperimentResult) : result (list (N * nat)) :=
  match counts r with
  | Some c => Ok c
  | None => Raise (AttributeError "counts")
  end.

(** ["{0:b}".format(n)] for a non-negative integer. *)
Fixpoint bin_digits (p : positive) (acc : string) : string :=
  match p with
  | xH => String "1" acc
  | xO p' => bin_digits p' (String "0" acc)
  | xI p' => bin_digits p' (String "1" acc)
  end.

Definition format_b (n : N) : string :=
  match n with
  | N0 => "0"
  | Npos p => bin_digits p ""
  end.

Fixpoint zeros (n : nat) : string :=
  match n with
  | O => ""
  | S k => String "0" (zeros k)
  end.

(** [s.zfill(width)] for a string without sign. *)
Definition zfill (width : nat) (s : string) : string :=
  (zeros (width - String.length s) ++ s)%string.

(** [np.vectorize(f)(xs)]: the output type is found by calling [f] on the
    first element, so an empty input is an error. *)
Definition vectorize {B} (f : string -> result B) (xs : list string)
  : result (list B) :=
  match xs with
  | [] => Raise ValueError
  | _ => mapM f xs
  end.

Definition Q_of_bool (b : bool) : Q := if b then 1 else 0.
Definition Q_of_nat (n : nat) : Q := inject_Z (Z.of_nat n).

(** [count / n_shots] for two Python integers. *)
Definition py_div (count n_shots : nat) : result Q :=
  match n_shots with
  | O => Raise ZeroDivisionError
  | _ => Ok (Q_of_nat count / Q_of_nat n_shots)
  end.

(** [x / n_shots] for a numpy scalar [x]: dividing by zero gives [inf] or
    [nan], which have no rational value. *)
Definition np_div (x : Q) (n_shots : nat) : result Q :=
  match n_shots with
  | O => Raise NotRational
  | _ => Ok (x / Q_of_nat n_shots)
  end.

(** ** The module's global names

    The sampled branch of [successProbability] reads three names that are
    not attributes of the object: [rN], [is_Solution] and [FR].  They are
    looked up in the module's global namespace at the time of the call. *)
Record Globals : Type := mk_Globals {
  g_rN : option nat;
  g_is_Solution : option (string -> ndarray2 -> result bool);
  g_FR : option ndarray2
}.

Definition lookup {A} (name : string) (o : option A) : result A :=
  match o with
  | Some a => Ok a
  | None => Raise (NameError name)
  end.

(** The namespace in which none of [rN], [is_Solution], [FR] is bound.
    [tailassignment_oop.py] binds only its two classes at module level; its
    other global names come from [from qaoa_OOP import *], the module of
    the base class. *)
Definition module_globals : Globals :=
  {| g_rN := None; g_is_Solution := None; g_FR := None |}.

(** ** Success probability *)

(** The loop over [counts.keys()] of one result block. *)
Fixpoint sp_counts (g : Globals) (n_shots : nat) (cs : list (N * nat))
  (s_prob : Q) : result Q :=
  match cs with
  | [] => Ok s_prob
  | (key, count) :: cs' =>
      rN <- lookup "rN" (g_rN g) ;;
      let binstring := zfill rN (format_b key) in
      is_Solution <- lookup "is_Solution" (g_is_Solution g) ;;
      FR_ <- lookup "FR" (g_FR g) ;;
      b <- is_Solution binstring FR_ ;;
      s_prob' <- (if b : bool
                  then q <- py_div count n_shots ;; Ok (s_prob + q)
                  else Ok s_prob) ;;
      sp_counts g n_shots cs' s_prob'
  end.

(** The loop over [experiment_results]. *)
Fixpoint sp_results (g : Globals) (rs : list ExperimentResult) (s_prob : Q)
  : result Q :=
  match rs with
  | [] => Ok s_prob
  | r :: rs' =>
      let n_shots := shots r in
      cs <- data_counts r ;;
      s_prob' <- sp_counts g n_shots cs s_prob ;;
      sp_results g rs' s_prob'
  end.

(** The branch taken for a statevector backend. *)
Definition successProbability_statevector (self : QAOATailAssignment)
  (job : Job) : result Q :=
  probs <- statevector_probs job ;;
  sol <- vectorize (is_solution self) (state_strings self) ;;
  matmul_vv (map Q_of_bool sol) probs.

(** The branch taken for every other backend. *)
Definition successProbability_counts (g : Globals) (job : Job) : result Q :=
  sp_results g (results job) 0.

Definition successProbability (g : Globals) (self : QAOATailAssignment)
  (job : Job) : result Q :=
  if statevector_backend self
  then successProbability_statevector self job
  else successProbability_counts g job.

(** ** Measurement statistics *)

(** A float that may be [-inf]. *)
Inductive xfloat : Type :=
| neg_inf
| fin (q : Q).

(** [max(cost_best, c)]: the second argument only when it is greater. *)
Definition py_max (cost_best : xfloat) (c : Q) : xfloat :=
  match cost_best with
  | neg_inf => fin c
  | fin q => if Qlt_le_dec q c then fin c else fin q
  end.

(** [np.ceil] of a 1-d array. *)
Definition np_ceil (v : list Q) : list Q :=
  map (fun p => inject_Z (Qceiling p)) v.

(** The loop over [counts.keys()] of one result block. *)
Fixpoint ms_counts (self : QAOATailAssignment) (R_ n_shots : nat)
  (cs : list (N * nat)) (E : Q) (cost_best : xfloat) : result (Q * xfloat) :=
  match cs with
  | [] => Ok (E, cost_best)
  | (key, count) :: cs' =>
      let binstring := zfill R_ (format_b key) in
      c <- cost self binstring ;;
      let cost_best' := py_max cost_best c in
      q <- np_div (c * Q_of_nat count) n_shots ;;
      ms_counts self R_ n_shots cs' (E + q) cost_best'
  end.

(** The loop over [enumerate(experiment_results)]; the list returned holds
    [expectations[i]] for every [i]. *)
Fixpoint ms_results (self : QAOATailAssignment) (R_ : nat)
  (rs : list ExperimentResult) (cost_best : xfloat)
  : result (list Q * xfloat) :=
  match rs with
  | [] => Ok ([], cost_best)
  | r :: rs' =>
      let n_shots := shots r in
      cs <- data_counts r ;;
      Eb <- ms_counts self R_ n_shots cs 0 cost_best ;;
      rest <- ms_results self R_ rs' (snd Eb) ;;
      Ok (fst Eb :: fst rest, snd rest)
  end.

(** [expectations = np.zeros(n); expectations[0] = E] *)
Definition zeros_with_first (n : nat) (E : Q) : result (list Q) :=
  match n with
  | O => Raise IndexError
  | S k => Ok (E :: repeat 0 k)
  end.

(** The branch taken for a statevector backend. *)
Definition measurementStatistics_statevector (self : QAOATailAssignment)
  (job : Job) (cost_best : xfloat)
  : result (list Q * option (list Q) * xfloat) :=
  probs <- statevector_probs job ;;
  costs <- vectorize (cost self) (state_strings self) ;;
  E <- matmul_vv costs probs ;;
  best_sampled_state <- matmul_vv costs (np_ceil probs) ;;
  let cost_best := py_max cost_best best_sampled_state in
  expectations <- zeros_with_first (length (results job)) E ;;
  Ok (expectations, None, cost_best).

(** The branch taken for every other backend. *)
Definition measurementStatistics_counts (self : QAOATailAssignment)
  (R_ : nat) (job : Job) (cost_best : xfloat)
  : result (list Q * option (list Q) * xfloat) :=
  Eb <- ms_results self R_ (results job) cost_best ;;
  Ok (fst Eb, None, snd Eb).

Definition measurementStatistics (self : QAOATailAssignment) (job : Job)
  : result (list Q * option (list Q) * xfloat) :=
  R_ <- (match rows (FR self) with
         | [] => Raise IndexError
         | _ :: _ => Ok (ncols (FR self))
         end) ;;
  let cost_best := neg_inf in
  if statevector_backend self
  then measurementStatistics_statevector self job cost_best
  else measurementStatistics_counts self R_ job cost_best.

(** ** The vocabulary of the specification *)

(** [big_sum f n] is [f 0 + ... + f (n-1)]. *)
Fixpoint big_sum (f : nat -> Q) (n : nat) : Q :=
  match n with
  | O => 0
  | S k => big_sum f k + f k
  end.

(** [M[f, r]] *)
Definition entry (M : ndarray2) (f r : nat) : Q :=
  nth r (nth f (rows M) []) 0.

Definition bit_value (c : ascii) : Q :=
  if Ascii.eqb c "1"%char then 1 else 0.

(** The 0/1 assignment vector of a bit string: its bits in reversed order. *)
Definition assignment (b : string) : list Q :=
  map bit_value (rev (list_ascii_of_string b)).

(** [CR . x] *)
Definition linear_term (self : QAOATailAssignment) (x : list Q) : Q :=
  big_sum (fun r => nth r (CR self) 0 * nth r x 0) (R self).

(** [(FR . x)_f]: how often task [f] is covered. *)
Definition row_cover (self : QAOATailAssignment) (x : list Q) (f : nat) : Q :=
  big_sum (fun r => entry (FR self) f r * nth r x 0) (R self).

(** [sum_f (1 - (FR . x)_f)^2] *)
Definition penalty (self : QAOATailAssignment) (x : list Q) : Q :=
  big_sum (fun f => (1 - row_cover self x f) ^ 2) (F self).

(** The cost of the specification. *)
Definition cost_formula (self : QAOATailAssignment) (b : string) : Q :=
  - (linear_term self (assignment b) + mu self * penalty self (assignment b)).

(** The local fields and couplings of the specification. *)
Definition local_field_cost (self : QAOATailAssignment) (r : nat) : Q :=
  (1 # 2) * nth r (CR self) 0.

Definition local_field_exco (self : QAOATailAssignment) (r : nat) : Q :=
  (1 # 2) * mu self * dot (column (FR self) r) (rowsum_minus_2 self).

Definition coupling (self : QAOATailAssignment) (r r_ : nat) : Q :=
  (1 # 2) * dot (column (FR self) r) (column (FR self) r_).

(** The same quantities written entry by entry. [row_total self f] is
    [sum_r FR[f, r]], the row sum of task [f]. *)
Definition row_total (self : QAOATailAssignment) (f : nat) : Q :=
  big_sum (fun r => entry (FR self) f r) (R self).

(** [FR[:, r] . (rowsum(FR) - 2) = sum_f FR[f, r] * (sum_r' FR[f, r'] - 2)] *)
Definition column_field (self : QAOATailAssignment) (r : nat) : Q :=
  big_sum (fun f => entry (FR self) f r * (row_total self f - 2)) (F self).

(** [FR[:, r] . FR[:, r_] = sum_f FR[f, r] * FR[f, r_]] *)
Definition column_overlap (self : QAOATailAssignment) (r r_ : nat) : Q :=
  big_sum (fun f => entry (FR self) f r * entry (FR self) f r_) (F self).

(** [gamma * (0.5*CR[r] + 0.5*mu*FR[:,r].(rowsum(FR)-2))] *)
Definition hamiltonian_rotation (self : QAOATailAssignment) (gamma : Q)
  (r : nat) : Q :=
  gamma * ((1 # 2) * nth r (CR self) 0
           + (1 # 2) * mu self * column_field self r).

(** [gamma * 0.5*mu*FR[:,r].(rowsum(FR)-2)] *)
Definition exco_rotation (self : QAOATailAssignment) (gamma : Q) (r : nat)
  : Q :=
  gamma * ((1 # 2) * mu self * column_field self r).

(** [gamma * 0.5*FR[:,r].FR[:,r_]] *)
Definition coupling_rotation (self : QAOATailAssignment) (gamma : Q)
  (r r_ : nat) : Q :=
  gamma * ((1 # 2) * column_overlap self r r_).

(** The gates of an Ising Hamiltonian on [n] qubits with local fields [h]
    and couplings [J]: for every qubit [r] one rotation, then for every
    later qubit [r_] a controlled gate, a rotation on [r_], and the
    controlled gate again. *)
Definition triples (J : nat -> Q) (r : nat) (l : list nat) : QuantumCircuit :=
  flat_map (fun r_ => [cx r r_; rz (J r_) r_; cx r r_]) l.

Definition ising_gates (h : nat -> Q) (J : nat -> nat -> Q) (n : nat)
  : QuantumCircuit :=
  flat_map (fun r => rz (h r) r :: triples (J r) r (range (r + 1) n))
           (range 0 n).

Definition hamiltonian_gates (self : QAOATailAssignment) (gamma : Q)
  : QuantumCircuit :=
  ising_gates
    (fun r => gamma * (local_field_cost self r + local_field_exco self r))
    (fun r r_ => gamma * coupling self r r_)
    (R self).

Definition exco_gates (self : QAOATailAssignment) (gamma : Q)
  : QuantumCircuit :=
  ising_gates
    (fun r => gamma * local_field_exco self r)
    (fun r r_ => gamma * coupling self r r_)
    (R self).

Definition cost_gates (self : QAOATailAssignment) (gamma : Q)
  : QuantumCircuit :=
  map (fun r => rz (gamma * local_field_cost self r) r) (range 0 (R self)).

(** The pairs [(r, r_)] with [r < r_ < n], row by row. *)
Definition upper_pairs (n : nat) : list (nat * nat) :=
  flat_map (fun r => map (pair r) (range (r + 1) n)) (range 0 n).

(** Two gates are the same up to the representation of their angle. *)
Definition gate_eqv (g1 g2 : Gate) : Prop :=
  match g1, g2 with
  | rz a q, rz b q' => a == b /\ q = q'
  | cx c t, cx c' t' => c = c' /\ t = t'
  | rx_all a, rx_all b => a == b
  | barrier, barrier => True
  | measure_all, measure_all => True
  | _, _ => False
  end.

Definition circuit_eqv : QuantumCircuit -> QuantumCircuit -> Prop :=
  Forall2 gate_eqv.

(** Reading a circuit back as Hamiltonian terms: a [cx; rz; cx] triple on
    one pair of qubits is a coupling term, any other [rz] a local field. *)
Inductive Term : Type :=
| local_term (qubit : nat) (theta : Q)
| coupling_term (control target : nat) (theta : Q)
| other_gate (g : Gate).

Fixpoint terms (qc : QuantumCircuit) : list Term :=
  match qc with
  | [] => []
  | cx a b :: tl =>
      match tl with
      | rz th q :: cx a' b' :: rest =>
          if (Nat.eqb a a' && Nat.eqb b b' && Nat.eqb q b)%bool
          then coupling_term a b th :: terms rest
          else other_gate (cx a b) :: terms tl
      | _ => other_gate (cx a b) :: terms tl
      end
  | rz th q :: tl => local_term q th :: terms tl
  | g :: tl => other_gate g :: terms tl
  end.

(** The qubit pairs coupled by a circuit, in order of emission. *)
Definition coupled_pairs (qc : QuantumCircuit) : list (nat * nat) :=
  flat_map (fun t => match t with
                     | coupling_term a b _ => [(a, b)]
                     | _ => []
                     end) (terms qc).

(** The local-field rotations of a circuit, in order of emission. *)
Definition local_rotations (qc : QuantumCircuit) : list (nat * Q) :=
  flat_map (fun t => match t with
                     | local_term q th => [(q, th)]
                     | _ => []
                     end) (terms qc).

(** The angle of the first local-field rotation on qubit [r]. *)
Definition local_angle (qc : QuantumCircuit) (r : nat) : option Q :=
  option_map snd (find (fun p => Nat.eqb (fst p) r) (local_rotations qc)).

Definition pair_eq_dec (p q : nat * nat) : {p = q} + {p <> q}.
Proof. decide equality; apply Nat.eq_dec. Defined.

(** How often the unordered pair [{a, b}] occurs in a list of pairs. *)
Definition unordered_count (a b : nat) (l : list (nat * nat)) : nat :=
  (count_occ pair_eq_dec l (a, b) + count_occ pair_eq_dec l (b, a))%nat.

(** The measured bit string of an integer key on [n] qubits. *)
Definition measured (n : nat) (key : N) : string := zfill n (format_b key).

(** The shot-weighted average cost of one result block. *)
Definition average_cost (self : QAOATailAssignment) (r : ExperimentResult)
  (cs : list (N * nat)) : Q :=
  np_sum (map (fun kc => cost_formula self (measured (R self) (fst kc))
                         * Q_of_nat (snd kc) / Q_of_nat (shots r)) cs).

(** The fraction of the shots of one result block that are solutions. *)
Definition solution_fraction (self : QAOATailAssignment) (n_shots : nat)
  (cs : list (N * nat)) : Q :=
  np_sum (map (fun kc => match is_solution self (measured (R self) (fst kc)) with
                         | Ok true => Q_of_nat (snd kc) / Q_of_nat n_shots
                         | _ => 0
                         end) cs).

(** The probabilities of the states flagged in [ind]. *)
Fixpoint flagged (ind : list bool) (probs : list Q) : list Q :=
  match ind, probs with
  | i :: ind', p :: probs' =>
      if i then p :: flagged ind' probs' else flagged ind' probs'
  | _, _ => []
  end.

(** The order on floats that may be [-inf]. *)
Definition xle (a b : xfloat) : Prop :=
  match a, b with
  | neg_inf, _ => True
  | fin _, neg_inf => False
  | fin p, fin q => p <= q
  end.

(** All keys measured in a job, over all result blocks. *)
Definition measured_keys (rs : list ExperimentResult) : list N :=
  flat_map (fun r => match counts r with
                     | Some cs => map fst cs
                     | None => []
                     end) rs.

(** ** Example objects *)

(** Two tasks and three resources; the bit string "001" selects resource 0
    alone, which covers both tasks. *)
Definition FR_example : ndarray2 :=
  {| rows := [[1; 0; 0]; [1; 1; 1]]; ncols := 3 |}.

Definition sampled_example : QAOATailAssignment :=
  {| FR := FR_example; CR := [3; 1; 2]; mu := 1; usebarrier := false;
     backend_name := "qasm_simulator"; depth := 1; state_strings := [] |}.

Definition exact_example : QAOATailAssignment :=
  {| FR := FR_example; CR := [3; 1; 2]; mu := 1; usebarrier := true;
     backend_name := "statevector_simulator"; depth := 1;
     state_strings := ["000"; "001"; "010"; "011"; "100"; "101"; "110"; "111"] |}.

(** Counts of "001" seven times and "110" three times, in ten shots. *)
Definition job_example : Job :=
  {| results := [ {| shots := 10; counts := Some [(1%N, 7%nat); (6%N, 3%nat)] |} ];
     statevector_probs := Raise BackendError |}.

(** A statevector result: "001" with probability 1/2, "110" and "111" with
    probability 1/4 each. *)
Definition statevector_job_example : Job :=
  {| results := [ {| shots := 1; counts := None |} ];
     statevector_probs := Ok [0; 1 # 2; 0; 0; 0; 0; 1 # 4; 1 # 4] |}.

(** A sampled result that holds no counts at all. *)
Definition empty_job_example : Job :=
  {| results := [ {| shots := 10; counts := Some [] |} ];
     statevector_probs := Raise BackendError |}.

(** The global names as they would have to be bound for the sampled branch
    of [successProbability] to use the object's own data. *)
Definition with_FR (self : QAOATailAssignment) (M : ndarray2)
  : QAOATailAssignment :=
  {| FR := M; CR := CR self; mu := mu self; usebarrier := usebarrier self;
     backend_name := backend_name self; depth := depth self;
     state_strings := state_strings self |}.

Definition globals_of (self : QAOATailAssignment) : Globals :=
  {| g_rN := Some (R self);
     g_is_Solution := Some (fun b M => is_solution (with_FR self M) b);
     g_FR := Some (FR self) |}.

(** The same object with another penalty weight. *)
Definition with_mu (self : QAOATailAssignment) (m : Q) : QAOATailAssignment :=
  {| FR := FR self; CR := CR self; mu := m; usebarrier := usebarrier self;
     backend_name := backend_name self; depth := depth self;
     state_strings := state_strings self |}.

(** The fraction of all shots of a job that are solutions for [self]. *)
Definition solution_fraction_job (self : QAOATailAssignment) (job : Job) : Q :=
  np_sum (map (fun r => match counts r with
                        | Some cs => solution_fraction self (shots r) cs
                        | None => 0
                        end) (results job)).

(** Two one-qubit problems that disagree on the bit string "1", and a job
    that measured "1" in its single shot. *)
Definition covering_example : QAOATailAssignment :=
  {| FR := {| rows := [[1]]; ncols := 1 |}; CR := [0]; mu := 1;
     usebarrier := false; backend_name := "qasm_simulator"; depth := 1;
     state_strings := [] |}.

Definition missing_example : QAOATailAssignment :=
  {| FR := {| rows := [[0]]; ncols := 1 |}; CR := [0]; mu := 1;
     usebarrier := false; backend_name := "qasm_simulator"; depth := 1;
     state_strings := [] |}.

Definition one_shot_job : Job :=
  {| results := [ {| shots := 1; counts := Some [(1%N, 1%nat)] |} ];
     statevector_probs := Raise BackendError |}.

(** A backend whose name contains "statevector" only as part of a longer
    word. *)
Definition misnamed_example : QAOATailAssignment :=
  {| FR := FR_example; CR := [3; 1; 2]; mu := 1; usebarrier := false;
     backend_name := "statevectors_sim"; depth := 1; state_strings := [] |}.

(** A base-class [initial_state] that starts from an empty circuit. *)
Definition fresh_circuit (n : nat) : Circ unit := fun _ => (Ok tt, []).

(** What [createCircuit] appends after the layers. *)
Definition final_gates (self : QAOATailAssignment) : QuantumCircuit :=
  if statevector_backend self then [] else [measure_all].

(** A computation that only appends gates satisfying [P] to the circuit,
    whether or not it raises. *)
Definition only_appends {A} (P : Gate -> Prop) (m : Circ A) : Prop :=
  forall qc, exists gs, snd (m qc) = qc ++ gs /\ Forall P gs.

Definition not_measure (g : Gate) : Prop := g <> measure_all.

(** The cost of the bit string measured as [key]. *)
Definition measured_cost (self : QAOATailAssignment) (key : N) : Q :=
  cost_formula self (measured (R self) key).

(** A result block of sampled mode: a positive number of shots, and counts
    whose keys fit in [R] bits. *)
Definition good_result (self : QAOATailAssignment) (r : ExperimentResult)
  : Prop :=
  (0 < shots r)%nat
  /\ exists cs, counts r = Some cs
                /\ Forall (fun kc => (N.to_nat (fst kc) < 2 ^ R self)%nat) cs.

(** ** Further vocabulary *)

(** A string of ASCII characters. *)
Definition is_ascii (b : string) : bool :=
  forallb (fun c => Nat.ltb (nat_of_ascii c) 128) (list_ascii_of_string b).

(** The ASCII characters that [int] accepts. *)
Definition is_digit (c : ascii) : bool :=
  andb (Nat.leb 48 (nat_of_ascii c)) (Nat.leb (nat_of_ascii c) 57).

Definition all_digits (b : string) : bool :=
  forallb is_digit (list_ascii_of_string b).

Definition digit_value (c : ascii) : Q :=
  inject_Z (Z.of_nat (nat_of_ascii c - 48)).

(** The vector of a string of digits: its digits in reversed order. *)
Definition digit_vector (b : string) : list Q :=
  map digit_value (rev (list_ascii_of_string b)).

(** A gate that acts inside a register of [n] qubits: a rotation on a
    qubit below [n], or a controlled gate whose control is below its
    target. *)
Definition gate_in_register (n : nat) (g : Gate) : Prop :=
  match g with
  | rz _ q => (q < n)%nat
  | cx c t => (c < t < n)%nat
  | _ => False
  end.

(** [[barrier]] when [options['usebarrier']] is set. *)
Definition barrier_gates (self : QAOATailAssignment) : QuantumCircuit :=
  if usebarrier self then [barrier] else [].

(** The gates of one layer of the standard circuit. *)
Definition layer_gates (self : QAOATailAssignment) (gamma beta : Q)
  : QuantumCircuit :=
  hamiltonian_gates self gamma ++ barrier_gates self
  ++ [rx_all (- (2) * beta)] ++ barrier_gates self.

(** The binary digits of a positive number, least significant first. *)
Fixpoint lsb_digits (p : positive) : list ascii :=
  match p with
  | xH => ["1"%char]
  | xO p' => "0"%char :: lsb_digits p'
  | xI p' => "1"%char :: lsb_digits p'
  end.

(** An object whose cost vector is shorter than its register. *)
Definition short_CR_example : QAOATailAssignment :=
  {| FR := FR_example; CR := [3; 1]; mu := 1; usebarrier := false;
     backend_name := "qasm_simulator"; depth := 1; state_strings := [] |}.

(** ** The interlaced variant

    [TailAssignmentInterlaced] overrides [createCircuit] only: the angles
    come in triples, and every layer applies the cost part, the mixer, the
    constraint part and the mixer again. *)
Module TailAssignmentInterlaced.

Section CreateCircuit.

Variable initial_state : nat -> Circ unit.

(** The body of the loop over [d]. *)
Definition layer (self : QAOATailAssignment) (gammas betas deltas : list Q)
  (d : nat) : Circ unit :=
  (gamma <- lift (getitem gammas d) ;;
   beta <- lift (getitem betas d) ;;
   delta <- lift (getitem deltas d) ;;
   apply_cost self delta ;;
   (if usebarrier self then emit barrier else cret tt) ;;
   mix_states self beta ;;
   (if usebarrier self then emit barrier else cret tt) ;;
   apply_exco self gamma ;;
   mix_states self beta ;;
   (if usebarrier self then emit barrier else cret tt))%circ.

(** Everything before the test on the backend's name. *)
Definition ansatz (self : QAOATailAssignment) (params : list Q)
  : Circ unit :=
  (initial_state (R self) ;;
   let gammas := slice_step 3 0 params in
   let betas := slice_step 3 1 params in
   let deltas := slice_step 3 2 params in
   for_ (range 0 (depth self)) (layer self gammas betas deltas))%circ.

Definition createCircuit (self : QAOATailAssignment) (params : list Q)
  : Circ QuantumCircuit :=
  (ansatz self params ;;
   (if negb (statevector_backend self) then emit measure_all else cret tt) ;;
   get_qc)%circ.

End CreateCircuit.

End TailAssignmentInterlaced.

(** The gates of one layer of the interlaced circuit. *)
Definition interlaced_layer_gates (self : QAOATailAssignment)
  (gamma beta delta : Q) : QuantumCircuit :=
  cost_gates self delta ++ barrier_gates self
  ++ [rx_all (- (2) * beta)] ++ barrier_gates self
  ++ exco_gates self gamma
  ++ [rx_all (- (2) * beta)] ++ barrier_gates self.

(** The number of characters of ["{0:b}".format(key)]. *)
Definition binary_width (key : N) : nat :=
  match key with
  | N0 => 1%nat
  | Npos p => Pos.size_nat p
  end.

(** [p > 0] *)
Definition is_positive (p : Q) : bool :=
  if Qlt_le_dec 0 p then true else false.

(** A sampled result whose first key, 8, does not fit in three bits. *)
Definition wide_job_example : Job :=
  {| results := [ {| shots := 10; counts := Some [(8%N, 10%nat)] |} ];
     statevector_probs := Raise BackendError |}.

(** A statevector result without any result block. *)
Definition no_block_job_example : Job :=
  {| results := [];
     statevector_probs := Ok [0; 1 # 2; 0; 0; 0; 0; 1 # 4; 1 # 4] |}.

(** * Properties *)

(** ** Sums *)

Lemma big_sum_ext (f g : nat -> Q) (n : nat) :
  (forall i, (i < n)%nat -> f i == g i) -> big_sum f n == big_sum g n.
Proof.
  induction n as [|n IH]; intros H; simpl.
  - reflexivity.
  - rewrite IH by (intros; apply H; lia).
    rewrite (H n) by lia. reflexivity.
Qed.

Lemma big_sum_shift (f : nat -> Q) (n : nat) :
  big_sum f (S n) == f O + big_sum (fun i => f (S i)) n.
Proof.
  induction n as [|n IH].
  - simpl. ring.
  - change (big_sum f (S (S n))) with (big_sum f (S n) + f (S n)).
    rewrite IH. simpl. ring.
Qed.

Lemma np_sum_big_sum (l : list Q) :
  np_sum l == big_sum (fun i => nth i l 0) (length l).
Proof.
  induction l as [|a l IH].
  - reflexivity.
  - cbn [np_sum length]. rewrite big_sum_shift. cbn [nth].
    rewrite IH. reflexivity.
Qed.

Lemma np_sum_map_big_sum {A} (g : A -> Q) (d : A) (l : list A) :
  np_sum (map g l) == big_sum (fun i => g (nth i l d)) (length l).
Proof.
  induction l as [|a l IH].
  - reflexivity.
  - cbn [np_sum map length]. rewrite big_sum_shift. cbn [nth].
    rewrite IH. reflexivity.
Qed.

Lemma np_sum_ext {A} (g h : A -> Q) (l : list A) :
  (forall a, In a l -> g a == h a) ->
  np_sum (map g l) == np_sum (map h l).
Proof.
  induction l as [|a l IH]; intros H; simpl.
  - reflexivity.
  - rewrite (H a) by (left; reflexivity).
    rewrite IH by (intros; apply H; right; assumption).
    reflexivity.
Qed.

Lemma mul_elementwise_length (u v : list Q) :
  length u = length v -> length (mul_elementwise u v) = length u.
Proof.
  revert v. induction u as [|a u IH]; intros [|b v] H; simpl in *;
    try discriminate; auto.
Qed.

Lemma mul_elementwise_nth (u v : list Q) (i : nat) :
  length u = length v ->
  nth i (mul_elementwise u v) 0 == nth i u 0 * nth i v 0.
Proof.
  revert v i. induction u as [|a u IH]; intros [|b v] i H; simpl in *;
    try discriminate.
  - destruct i; ring.
  - destruct i as [|i]; [reflexivity | apply IH; lia].
Qed.

Lemma dot_big_sum (u v : list Q) (n : nat) :
  length u = n -> length v = n ->
  dot u v == big_sum (fun r => nth r u 0 * nth r v 0) n.
Proof.
  intros Hu Hv. unfold dot. rewrite np_sum_big_sum.
  rewrite mul_elementwise_length by congruence. rewrite Hu.
  apply big_sum_ext. intros i _. apply mul_elementwise_nth. congruence.
Qed.

Lemma dot_scale_l (c : Q) (u v : list Q) :
  dot (scale c u) v == c * dot u v.
Proof.
  unfold dot, scale. revert v.
  induction u as [|a u IH]; intros [|b v]; simpl; try ring.
  rewrite IH. ring.
Qed.

(** ** Bit strings *)

Lemma list_ascii_length (s : string) :
  length (list_ascii_of_string s) = String.length s.
Proof. induction s; simpl; congruence. Qed.

Lemma is_bit_cases (c : ascii) :
  is_bit c = true -> c = "0"%char \/ c = "1"%char.
Proof.
  unfold is_bit. intros H. apply orb_true_iff in H.
  destruct H as [H|H]; apply Ascii.eqb_eq in H; auto.
Qed.

Lemma mapM_bits (l : list ascii) :
  forallb is_bit l = true ->
  mapM (fun c => z <- int_of_char c ;; Ok (inject_Z z)) l
  = Ok (map bit_value l).
Proof.
  induction l as [|c l IH]; simpl; intros H.
  - reflexivity.
  - apply andb_true_iff in H. destruct H as [Hc Hl].
    rewrite (IH Hl).
    destruct (is_bit_cases c Hc); subst c; reflexivity.
Qed.

Lemma forallb_rev {A} (p : A -> bool) (l : list A) :
  forallb p l = true -> forallb p (rev l) = true.
Proof.
  rewrite !forallb_forall. intros H x Hx. apply H. apply in_rev. assumption.
Qed.

Lemma reversed_bits_assignment (b : string) :
  is_bitstring b = true -> reversed_bits b = Ok (assignment b).
Proof.
  intros H. unfold reversed_bits, assignment.
  apply mapM_bits. apply forallb_rev. exact H.
Qed.

Lemma assignment_length (b : string) :
  length (assignment b) = String.length b.
Proof.
  unfold assignment. rewrite length_map, length_rev. apply list_ascii_length.
Qed.

Lemma assignment_nth (b : string) (r : nat) :
  (r < String.length b)%nat ->
  nth r (assignment b) 0
  = bit_value (nth (String.length b - 1 - r) (list_ascii_of_string b) "0"%char).
Proof.
  intros Hr. unfold assignment.
  change 0 with (bit_value "0"%char) at 1. rewrite map_nth.
  rewrite rev_nth by (rewrite list_ascii_length; exact Hr).
  rewrite list_ascii_length. f_equal. f_equal. lia.
Qed.

(** ** The cost model *)

Lemma wf_row_length (self : QAOATailAssignment) (f : nat) :
  wf self -> (f < F self)%nat ->
  length (nth f (rows (FR self)) []) = R self.
Proof.
  intros [Hrows _] Hf. unfold wf_ndarray2 in Hrows.
  rewrite Forall_forall in Hrows. apply Hrows. apply nth_In. exact Hf.
Qed.

(** What [cost] computes on a bit string of the right length, as the code
    has it. *)
Lemma cost_eval (self : QAOATailAssignment) (b : string) :
  wf self -> is_bitstring b = true -> String.length b = R self ->
  cost self b
  = Ok (- (dot (CR self) (assignment b)
           + mu self * np_sum (map (fun y => (1 - y) ^ 2)
                                   (map (fun row => dot row (assignment b))
                                        (rows (FR self)))))).
Proof.
  intros [Hrows HCR] Hb Hlen. unfold cost.
  rewrite (reversed_bits_assignment b Hb). cbn [rbind].
  unfold matmul_vv, matmul_mv.
  rewrite assignment_length, HCR, Hlen. fold (R self).
  rewrite Nat.eqb_refl. cbn [rbind]. reflexivity.
Qed.

Lemma row_dot_cover (self : QAOATailAssignment) (b : string) (f : nat) :
  wf self -> String.length b = R self -> (f < F self)%nat ->
  dot (nth f (rows (FR self)) []) (assignment b)
  == row_cover self (assignment b) f.
Proof.
  intros Hwf Hlen Hf. unfold row_cover, entry.
  apply dot_big_sum.
  - apply wf_row_length; assumption.
  - rewrite assignment_length. exact Hlen.
Qed.

Lemma cost_formula_correct (self : QAOATailAssignment) (b : string) :
  wf self -> is_bitstring b = true -> String.length b = R self ->
  exists v, cost self b = Ok v /\ v == cost_formula self b.
Proof.
  intros Hwf Hb Hlen. eexists. split.
  - apply cost_eval; assumption.
  - unfold cost_formula, linear_term, penalty.
    rewrite (dot_big_sum (CR self) (assignment b) (R self));
      [| apply Hwf | rewrite assignment_length; exact Hlen].
    rewrite map_map.
    rewrite (np_sum_map_big_sum _ []).
    fold (nrows (FR self)). fold (F self).
    rewrite (big_sum_ext
               (fun i => (1 - dot (nth i (rows (FR self)) []) (assignment b)) ^ 2)
               (fun f => (1 - row_cover self (assignment b) f) ^ 2)).
    + reflexivity.
    + intros i Hi. rewrite row_dot_cover by assumption. reflexivity.
Qed.

(** What [is_solution] computes on a bit string of the right length. *)
Lemma is_solution_eval (self : QAOATailAssignment) (b : string) :
  wf self -> is_bitstring b = true -> String.length b = R self ->
  is_solution self b
  = Ok (forallb (fun row => Qeq_bool (np_sum (mul_elementwise row (assignment b)) - 1) 0)
                (rows (FR self))).
Proof.
  intros Hwf Hb Hlen. unfold is_solution.
  rewrite (reversed_bits_assignment b Hb). cbn [rbind].
  unfold broadcast_mul. rewrite assignment_length, Hlen. fold (R self).
  rewrite Nat.eqb_refl. cbn [rbind].
  unfold np_all, np_sum_axis1. rewrite !map_map.
  f_equal. induction (rows (FR self)) as [|row l IH]; simpl.
  - reflexivity.
  - rewrite IH. reflexivity.
Qed.

Lemma forallb_nth {A} (p : A -> bool) (d : A) (l : list A) :
  forallb p l = true <-> (forall i, (i < length l)%nat -> p (nth i l d) = true).
Proof.
  rewrite forallb_forall. split.
  - intros H i Hi. apply H. apply nth_In. exact Hi.
  - intros H x Hx. destruct (In_nth l x d Hx) as [i [Hi Hx']].
    rewrite <- Hx'. apply H. exact Hi.
Qed.

Lemma is_solution_covers (self : QAOATailAssignment) (b : string) :
  wf self -> is_bitstring b = true -> String.length b = R self ->
  exists t, is_solution self b = Ok t
            /\ (t = true <->
                forall f, (f < F self)%nat -> row_cover self (assignment b) f == 1).
Proof.
  intros Hwf Hb Hlen. eexists. split.
  - apply is_solution_eval; assumption.
  - rewrite (forallb_nth _ []). fold (nrows (FR self)). fold (F self).
    split; intros H f Hf; specialize (H f Hf).
    + apply Qeq_bool_iff in H.
      rewrite <- row_dot_cover by assumption. unfold dot. lra.
    + apply Qeq_bool_iff.
      rewrite <- row_dot_cover in H by assumption. unfold dot in H. lra.
Qed.

(** The end-to-end scenario of the specification: [FR] the 2x2 identity,
    [CR = [1, 1]], [mu = 1]. *)
Example identity_scenario :
  let self := {| FR := {| rows := [[1; 0]; [0; 1]]; ncols := 2 |};
                 CR := [1; 1]; mu := 1; usebarrier := false;
                 backend_name := "qasm_simulator"; depth := 1;
                 state_strings := [] |} in
  is_solution self "11" = Ok true
  /\ exists v, cost self "11" = Ok v /\ v == - (2).
Proof. split; [reflexivity | eexists; split; [reflexivity | reflexivity]]. Qed.

(** C1: for every bit string [b] of length [R], [cost] returns the negative
    of the linear term [CR . x] plus [mu] times the sum over the rows [f] of
    [(1 - (FR . x)_f)^2], where [x] is the 0/1 vector of the reversed
    string: [x_r] is the bit at position [R - 1 - r] of [b]. *)
Theorem cost_spec (self : QAOATailAssignment) (b : string) :
  wf self -> is_bitstring b = true -> String.length b = R self ->
  exists v,
    cost self b = Ok v
    /\ v == - (linear_term self (assignment b)
               + mu self * penalty self (assignment b))
    /\ forall r, (r < R self)%nat ->
         nth r (assignment b) 0
         = bit_value (nth (R self - 1 - r) (list_ascii_of_string b) "0"%char).
Proof.
  intros Hwf Hb Hlen.
  destruct (cost_formula_correct self b Hwf Hb Hlen) as [v [Hv Hf]].
  exists v. split; [exact Hv | split; [exact Hf |]].
  intros r Hr. rewrite <- Hlen. apply assignment_nth. lia.
Qed.

Lemma cost_spec_witness :
  exists v,
    cost sampled_example "110" = Ok v
    /\ v == - (linear_term sampled_example (assignment "110")
               + mu sampled_example * penalty sampled_example (assignment "110"))
    /\ forall r, (r < R sampled_example)%nat ->
         nth r (assignment "110") 0
         = bit_value (nth (R sampled_example - 1 - r)
                          (list_ascii_of_string "110") "0"%char).
Proof.
  apply (cost_spec sampled_example "110").
  - split; [repeat constructor | reflexivity].
  - reflexivity.
  - reflexivity.
Defined.

(** C2: for every bit string [b] of length [R], [is_solution] returns true
    if and only if every row of [FR], weighted by the reversed 0/1 vector of
    [b] and summed, equals 1.  The predicate is pure: its value is a
    function of [FR] and [b] alone, and evaluating it in the middle of
    building a circuit leaves the circuit as it was. *)
Theorem is_solution_spec (self : QAOATailAssignment) (b : string) :
  wf self -> is_bitstring b = true -> String.length b = R self ->
  exists t,
    is_solution self b = Ok t
    /\ (t = true <->
        forall f, (f < F self)%nat -> row_cover self (assignment b) f == 1)
    /\ (forall self', FR self' = FR self -> is_solution self' b = Ok t)
    /\ (forall qc, lift (is_solution self b) qc = (Ok t, qc)).
Proof.
  intros Hwf Hb Hlen.
  destruct (is_solution_covers self b Hwf Hb Hlen) as [t [Ht Hiff]].
  exists t. repeat split.
  - exact Ht.
  - apply Hiff.
  - apply Hiff.
  - intros self' HFR. unfold is_solution in *. rewrite HFR. exact Ht.
  - intros qc. unfold lift. rewrite Ht. reflexivity.
Qed.

Lemma is_solution_spec_witness :
  exists t,
    is_solution sampled_example "001" = Ok t
    /\ (t = true <->
        forall f, (f < F sampled_example)%nat ->
                  row_cover sampled_example (assignment "001") f == 1)
    /\ (forall self', FR self' = FR sampled_example ->
                      is_solution self' "001" = Ok t)
    /\ (forall qc, lift (is_solution sampled_example "001") qc = (Ok t, qc)).
Proof.
  apply (is_solution_spec sampled_example "001").
  - split; [repeat constructor | reflexivity].
  - reflexivity.
  - reflexivity.
Defined.

Lemma big_sum_zero (n : nat) : big_sum (fun _ => 0) n == 0.
Proof. induction n as [|n IH]; cbn [big_sum]; [reflexivity | rewrite IH; ring]. Qed.

Lemma penalty_feasible (self : QAOATailAssignment) (x : list Q) :
  (forall f, (f < F self)%nat -> row_cover self x f == 1) ->
  penalty self x == 0.
Proof.
  intros H. unfold penalty.
  rewrite (big_sum_ext _ (fun _ => 0)).
  - apply big_sum_zero.
  - intros f Hf. rewrite (H f Hf). ring.
Qed.

Lemma wf_with_mu (self : QAOATailAssignment) (m : Q) :
  wf self -> wf (with_mu self m).
Proof. intros H. exact H. Qed.

(** C10: for every bit string [b] of length [R], if [is_solution b] is true
    then [cost b] is [- (CR . x)] for the reversed 0/1 vector [x] of [b]:
    the penalty term vanishes, and the cost is the same for every value of
    the penalty weight [mu]. *)
Theorem cost_of_solution (self : QAOATailAssignment) (b : string) :
  wf self -> is_bitstring b = true -> String.length b = R self ->
  is_solution self b = Ok true ->
  exists v,
    cost self b = Ok v
    /\ v == - linear_term self (assignment b)
    /\ forall m, exists v',
         cost (with_mu self m) b = Ok v' /\ v' == v.
Proof.
  intros Hwf Hb Hlen Hsol.
  destruct (is_solution_covers self b Hwf Hb Hlen) as [t [Ht Hiff]].
  assert (Hcov : forall f, (f < F self)%nat ->
                           row_cover self (assignment b) f == 1).
  { apply Hiff. congruence. }
  pose proof (penalty_feasible self (assignment b) Hcov) as Hpen.
  destruct (cost_formula_correct self b Hwf Hb Hlen) as [v [Hv Hf]].
  assert (Hval : v == - linear_term self (assignment b)).
  { rewrite Hf. unfold cost_formula. rewrite Hpen. ring. }
  exists v. split; [exact Hv | split; [exact Hval |]].
  intros m.
  destruct (cost_formula_correct (with_mu self m) b (wf_with_mu self m Hwf) Hb Hlen)
    as [v' [Hv' Hf']].
  exists v'. split; [exact Hv' |].
  rewrite Hf', Hval. unfold cost_formula.
  change (penalty (with_mu self m) (assignment b))
    with (penalty self (assignment b)).
  change (linear_term (with_mu self m) (assignment b))
    with (linear_term self (assignment b)).
  rewrite Hpen. cbn [mu with_mu]. ring.
Qed.

Lemma cost_of_solution_witness :
  exists v,
    cost sampled_example "001" = Ok v
    /\ v == - linear_term sampled_example (assignment "001")
    /\ forall m, exists v',
         cost (with_mu sampled_example m) "001" = Ok v' /\ v' == v.
Proof.
  apply (cost_of_solution sampled_example "001").
  - split; [repeat constructor | reflexivity].
  - reflexivity.
  - reflexivity.
  - reflexivity.
Defined.

(** ** Running the gate-emitting methods *)

Lemma for_emits {A} (gs : A -> QuantumCircuit) (body : A -> Circ unit)
  (l : list A) :
  (forall a qc, In a l -> body a qc = (Ok tt, qc ++ gs a)) ->
  forall qc, for_ l body qc = (Ok tt, qc ++ flat_map gs l).
Proof.
  induction l as [|a l IH]; intros H qc; cbn [for_ flat_map].
  - unfold cret. rewrite app_nil_r. reflexivity.
  - unfold cbind. rewrite (H a qc) by (left; reflexivity).
    rewrite IH by (intros; apply H; right; assumption).
    rewrite app_assoc. reflexivity.
Qed.

Lemma in_range (a b i : nat) : In i (range a b) <-> (a <= i < b)%nat.
Proof. unfold range. rewrite in_seq. lia. Qed.

Lemma couple_run (self : QAOATailAssignment) (gamma : Q) (r : nat)
  (qc : QuantumCircuit) :
  couple self gamma r qc
  = (Ok tt,
     qc ++ triples (fun r_ => gamma * dot (scale (1 # 2) (column (FR self) r))
                                          (column (FR self) r_))
                   r (range (r + 1) (R self))).
Proof.
  unfold couple, triples. apply for_emits.
  intros r_ qc' _. unfold cbind, emit.
  rewrite <- !app_assoc. reflexivity.
Qed.

Lemma getitem_nth (v : list Q) (i : nat) :
  (i < length v)%nat -> getitem v i = Ok (nth i v 0).
Proof.
  intros Hi. unfold getitem.
  rewrite (nth_error_nth' v 0 Hi). reflexivity.
Qed.

Lemma apply_exco_run (self : QAOATailAssignment) (gamma : Q)
  (qc : QuantumCircuit) :
  apply_exco self gamma qc
  = (Ok tt,
     qc ++ ising_gates
             (fun r => gamma * dot (scale ((1 # 2) * mu self) (column (FR self) r))
                                   (rowsum_minus_2 self))
             (fun r r_ => gamma * dot (scale (1 # 2) (column (FR self) r))
                                      (column (FR self) r_))
             (R self)).
Proof.
  unfold apply_exco, ising_gates. apply for_emits.
  intros r qc' _. unfold cbind at 1. unfold emit at 1.
  rewrite couple_run. rewrite <- app_assoc. reflexivity.
Qed.

Lemma apply_cost_run (self : QAOATailAssignment) (gamma : Q)
  (qc : QuantumCircuit) :
  wf self ->
  apply_cost self gamma qc
  = (Ok tt,
     qc ++ flat_map (fun r => [rz (gamma * ((1 # 2) * nth r (CR self) 0)) r])
                    (range 0 (R self))).
Proof.
  intros [_ HCR]. unfold apply_cost. apply for_emits.
  intros r qc' Hr. apply in_range in Hr.
  unfold cbind, lift. rewrite getitem_nth by lia. reflexivity.
Qed.

Lemma apply_hamiltonian_run (self : QAOATailAssignment) (gamma : Q)
  (qc : QuantumCircuit) :
  wf self ->
  apply_hamiltonian self gamma qc
  = (Ok tt,
     qc ++ ising_gates
             (fun r => gamma * ((1 # 2) * nth r (CR self) 0
                                + dot (scale ((1 # 2) * mu self) (column (FR self) r))
                                      (rowsum_minus_2 self)))
             (fun r r_ => gamma * dot (scale (1 # 2) (column (FR self) r))
                                      (column (FR self) r_))
             (R self)).
Proof.
  intros [_ HCR]. unfold apply_hamiltonian, ising_gates. apply for_emits.
  intros r qc' Hr. apply in_range in Hr.
  unfold cbind at 1. unfold lift. rewrite getitem_nth by lia.
  unfold cbind at 1. unfold emit at 1.
  rewrite couple_run. rewrite <- app_assoc. reflexivity.
Qed.

(** ** Circuits up to the representation of angles *)

Lemma Forall2_flat_map {A B C} (P : B -> C -> Prop) (f : A -> list B)
  (g : A -> list C) (l : list A) :
  (forall a, In a l -> Forall2 P (f a) (g a)) ->
  Forall2 P (flat_map f l) (flat_map g l).
Proof.
  induction l as [|a l IH]; intros H; cbn [flat_map].
  - constructor.
  - apply Forall2_app.
    + apply H. left. reflexivity.
    + apply IH. intros. apply H. right. assumption.
Qed.

Lemma ising_gates_eqv (h h' : nat -> Q) (J J' : nat -> nat -> Q) (n : nat) :
  (forall r, h r == h' r) -> (forall r r_, J r r_ == J' r r_) ->
  circuit_eqv (ising_gates h J n) (ising_gates h' J' n).
Proof.
  intros Hh HJ. unfold circuit_eqv, ising_gates.
  apply Forall2_flat_map. intros r _. constructor.
  - split; [apply Hh | reflexivity].
  - unfold triples. apply Forall2_flat_map. intros r_ _.
    repeat constructor; auto.
Qed.

Lemma exco_angle (self : QAOATailAssignment) (gamma : Q) (r : nat) :
  gamma * dot (scale ((1 # 2) * mu self) (column (FR self) r))
              (rowsum_minus_2 self)
  == gamma * local_field_exco self r.
Proof. unfold local_field_exco. rewrite dot_scale_l. ring. Qed.

Lemma coupling_angle (self : QAOATailAssignment) (gamma : Q) (r r_ : nat) :
  gamma * dot (scale (1 # 2) (column (FR self) r)) (column (FR self) r_)
  == gamma * coupling self r r_.
Proof. unfold coupling. rewrite dot_scale_l. ring. Qed.

Lemma hamiltonian_angle (self : QAOATailAssignment) (gamma : Q) (r : nat) :
  gamma * ((1 # 2) * nth r (CR self) 0
           + dot (scale ((1 # 2) * mu self) (column (FR self) r))
                 (rowsum_minus_2 self))
  == gamma * (local_field_cost self r + local_field_exco self r).
Proof.
  unfold local_field_cost, local_field_exco. rewrite dot_scale_l. ring.
Qed.

(** ** Reading a circuit back as terms *)

Lemma terms_triple (a b : nat) (th : Q) (rest : QuantumCircuit) :
  terms (cx a b :: rz th b :: cx a b :: rest)
  = coupling_term a b th :: terms rest.
Proof. cbn [terms]. rewrite !Nat.eqb_refl. reflexivity. Qed.

Lemma terms_triples (J : nat -> Q) (r : nat) (l : list nat)
  (rest : QuantumCircuit) :
  terms (triples J r l ++ rest)
  = map (fun r_ => coupling_term r r_ (J r_)) l ++ terms rest.
Proof.
  unfold triples. induction l as [|r_ l IH]; cbn [flat_map map].
  - reflexivity.
  - rewrite <- app_assoc.
    change ([cx r r_; rz (J r_) r_; cx r r_] ++ ?x)
      with (cx r r_ :: rz (J r_) r_ :: cx r r_ :: x).
    rewrite terms_triple, IH. reflexivity.
Qed.

Lemma terms_blocks (h : nat -> Q) (J : nat -> nat -> Q)
  (rng : nat -> list nat) (l : list nat) :
  terms (flat_map (fun r => rz (h r) r :: triples (J r) r (rng r)) l)
  = flat_map (fun r => local_term r (h r)
                       :: map (fun r_ => coupling_term r r_ (J r r_)) (rng r)) l.
Proof.
  induction l as [|r l IH]; cbn [flat_map].
  - reflexivity.
  - rewrite <- app_comm_cons.
    change (terms (rz (h r) r :: ?x)) with (local_term r (h r) :: terms x).
    rewrite terms_triples, IH. rewrite <- app_comm_cons. reflexivity.
Qed.

Lemma coupled_pairs_blocks (h : nat -> Q) (J : nat -> nat -> Q)
  (rng : nat -> list nat) (l : list nat) :
  coupled_pairs (flat_map (fun r => rz (h r) r :: triples (J r) r (rng r)) l)
  = flat_map (fun r => map (pair r) (rng r)) l.
Proof.
  unfold coupled_pairs. rewrite terms_blocks.
  induction l as [|r l IH]; cbn [flat_map].
  - reflexivity.
  - rewrite flat_map_app, IH. f_equal. cbn [flat_map app].
    induction (rng r) as [|r_ l' IH']; cbn [map flat_map app].
    + reflexivity.
    + rewrite IH'. reflexivity.
Qed.

Lemma local_rotations_blocks (h : nat -> Q) (J : nat -> nat -> Q)
  (rng : nat -> list nat) (l : list nat) :
  local_rotations (flat_map (fun r => rz (h r) r :: triples (J r) r (rng r)) l)
  = map (fun r => (r, h r)) l.
Proof.
  unfold local_rotations. rewrite terms_blocks.
  induction l as [|r l IH]; cbn [flat_map map].
  - reflexivity.
  - rewrite flat_map_app, IH. cbn [flat_map app]. f_equal.
    induction (rng r) as [|r_ l' IH']; cbn [map flat_map app].
    + reflexivity.
    + exact IH'.
Qed.

Lemma local_rotations_rz (h : nat -> Q) (l : list nat) :
  local_rotations (flat_map (fun r => [rz (h r) r]) l)
  = map (fun r => (r, h r)) l.
Proof.
  unfold local_rotations.
  induction l as [|r l IH]; cbn [flat_map map app terms].
  - reflexivity.
  - rewrite IH. reflexivity.
Qed.

Lemma find_rotation (h : nat -> Q) (a len r : nat) :
  (a <= r < a + len)%nat ->
  find (fun p : nat * Q => Nat.eqb (fst p) r) (map (fun r => (r, h r)) (seq a len))
  = Some (r, h r).
Proof.
  revert a. induction len as [|len IH]; intros a Hr; cbn [seq map find fst].
  - lia.
  - destruct (Nat.eqb_spec a r) as [->|Hne].
    + reflexivity.
    + apply IH. lia.
Qed.

Lemma local_angle_ising (h : nat -> Q) (J : nat -> nat -> Q) (n r : nat) :
  (r < n)%nat -> local_angle (ising_gates h J n) r = Some (h r).
Proof.
  intros Hr. unfold local_angle, ising_gates.
  rewrite local_rotations_blocks. unfold range.
  rewrite find_rotation by lia. reflexivity.
Qed.

Lemma local_angle_rz (h : nat -> Q) (n r : nat) :
  (r < n)%nat ->
  local_angle (flat_map (fun r => [rz (h r) r]) (range 0 n)) r = Some (h r).
Proof.
  intros Hr. unfold local_angle.
  rewrite local_rotations_rz. unfold range.
  rewrite find_rotation by lia. reflexivity.
Qed.

(** ** The pairs of the upper triangle *)

Lemma in_upper_pairs (n a b : nat) :
  In (a, b) (upper_pairs n) <-> (a < b < n)%nat.
Proof.
  unfold upper_pairs. rewrite in_flat_map. split.
  - intros [r [Hr Hin]]. apply in_map_iff in Hin.
    destruct Hin as [r_ [Heq Hr_]]. inversion Heq; subst.
    apply in_range in Hr_. lia.
  - intros H. exists a. split.
    + apply in_range. lia.
    + apply in_map_iff. exists b. split; [reflexivity | apply in_range; lia].
Qed.

Lemma NoDup_rows_of_pairs (rng : nat -> list nat) (l : list nat) :
  NoDup l -> (forall r, NoDup (rng r)) ->
  NoDup (flat_map (fun r => map (pair r) (rng r)) l).
Proof.
  intros Hl Hrng. induction Hl as [|r l Hnotin Hl IH]; cbn [flat_map].
  - constructor.
  - apply NoDup_app.
    + apply NoDup_map_NoDup_ForallPairs; [| apply Hrng].
      intros x y _ _ Heq. inversion Heq. reflexivity.
    + exact IH.
    + intros [a b] Hin Hin'. apply in_map_iff in Hin.
      destruct Hin as [r_ [Heq _]]. inversion Heq; subst.
      apply in_flat_map in Hin'. destruct Hin' as [r' [Hr' Hin']].
      apply in_map_iff in Hin'. destruct Hin' as [r'' [Heq' _]].
      inversion Heq'; subst. contradiction.
Qed.

Lemma NoDup_upper_pairs (n : nat) : NoDup (upper_pairs n).
Proof.
  unfold upper_pairs, range. apply NoDup_rows_of_pairs.
  - apply seq_NoDup.
  - intros r. apply seq_NoDup.
Qed.

Lemma upper_pairs_once (n a b : nat) :
  (a < n)%nat -> (b < n)%nat -> a <> b ->
  unordered_count a b (upper_pairs n) = 1%nat.
Proof.
  intros Ha Hb Hab. unfold unordered_count.
  pose proof (NoDup_upper_pairs n) as Hnd.
  rewrite (NoDup_count_occ' pair_eq_dec) in Hnd.
  destruct (Nat.lt_ge_cases a b) as [Hlt|Hge].
  - rewrite (Hnd (a, b)) by (apply in_upper_pairs; lia).
    assert (H0 : count_occ pair_eq_dec (upper_pairs n) (b, a) = 0%nat).
    { apply count_occ_not_In. rewrite in_upper_pairs. lia. }
    rewrite H0. reflexivity.
  - rewrite (Hnd (b, a)) by (apply in_upper_pairs; lia).
    assert (H0 : count_occ pair_eq_dec (upper_pairs n) (a, b) = 0%nat).
    { apply count_occ_not_In. rewrite in_upper_pairs. lia. }
    rewrite H0. reflexivity.
Qed.

(** ** Columns and row sums, entry by entry *)

Lemma column_nth (M : ndarray2) (r f : nat) :
  nth f (column M r) 0 = entry M f r.
Proof.
  unfold column, entry.
  destruct (Nat.lt_ge_cases f (length (rows M))) as [Hlt|Hge].
  - rewrite (nth_indep _ 0 ((fun row : list Q => nth r row 0) []))
      by (rewrite length_map; exact Hlt).
    apply (map_nth (fun row : list Q => nth r row 0)).
  - rewrite nth_overflow by (rewrite length_map; exact Hge).
    rewrite (nth_overflow (rows M)) by exact Hge.
    destruct r; reflexivity.
Qed.

Lemma rowsum_minus_2_nth (self : QAOATailAssignment) (f : nat) :
  wf self -> (f < F self)%nat ->
  nth f (rowsum_minus_2 self) 0 == row_total self f - 2.
Proof.
  intros Hwf Hf. unfold rowsum_minus_2, sub_scalar, np_sum_axis1.
  rewrite map_map.
  rewrite (nth_indep _ 0 ((fun row : list Q => np_sum row - 2) []))
    by (rewrite length_map; exact Hf).
  rewrite (map_nth (fun row : list Q => np_sum row - 2)).
  rewrite np_sum_big_sum, (wf_row_length self f Hwf Hf).
  unfold row_total, entry. reflexivity.
Qed.

Lemma column_field_dot (self : QAOATailAssignment) (r : nat) :
  wf self ->
  dot (column (FR self) r) (rowsum_minus_2 self) == column_field self r.
Proof.
  intros Hwf. unfold column_field.
  rewrite (dot_big_sum _ _ (F self)).
  - apply big_sum_ext. intros f Hf.
    rewrite column_nth, (rowsum_minus_2_nth self f Hwf Hf). reflexivity.
  - unfold column. rewrite length_map. reflexivity.
  - unfold rowsum_minus_2, sub_scalar, np_sum_axis1.
    rewrite !length_map. reflexivity.
Qed.

Lemma column_overlap_dot (self : QAOATailAssignment) (r r_ : nat) :
  dot (column (FR self) r) (column (FR self) r_) == column_overlap self r r_.
Proof.
  unfold column_overlap.
  rewrite (dot_big_sum _ _ (F self)).
  - apply big_sum_ext. intros f _. rewrite !column_nth. reflexivity.
  - unfold column. rewrite length_map. reflexivity.
  - unfold column. rewrite length_map. reflexivity.
Qed.

(** The local fields and couplings of the specification are the sums over
    the entries of [FR]. *)
Lemma local_field_exco_entries (self : QAOATailAssignment) (r : nat) :
  wf self ->
  local_field_exco self r == (1 # 2) * mu self * column_field self r.
Proof.
  intros Hwf. unfold local_field_exco.
  rewrite (column_field_dot self r Hwf). reflexivity.
Qed.

Lemma coupling_entries (self : QAOATailAssignment) (r r_ : nat) :
  coupling self r r_ == (1 # 2) * column_overlap self r r_.
Proof. unfold coupling. rewrite column_overlap_dot. reflexivity. Qed.

Lemma hamiltonian_rotation_emitted (self : QAOATailAssignment) (gamma : Q)
  (r : nat) :
  wf self ->
  gamma * ((1 # 2) * nth r (CR self) 0
           + dot (scale ((1 # 2) * mu self) (column (FR self) r))
                 (rowsum_minus_2 self))
  == hamiltonian_rotation self gamma r.
Proof.
  intros Hwf. unfold hamiltonian_rotation.
  rewrite dot_scale_l, (column_field_dot self r Hwf). ring.
Qed.

Lemma exco_rotation_emitted (self : QAOATailAssignment) (gamma : Q)
  (r : nat) :
  wf self ->
  gamma * dot (scale ((1 # 2) * mu self) (column (FR self) r))
              (rowsum_minus_2 self)
  == exco_rotation self gamma r.
Proof.
  intros Hwf. unfold exco_rotation.
  rewrite dot_scale_l, (column_field_dot self r Hwf). ring.
Qed.

Lemma coupling_rotation_emitted (self : QAOATailAssignment) (gamma : Q)
  (r r_ : nat) :
  gamma * dot (scale (1 # 2) (column (FR self) r)) (column (FR self) r_)
  == coupling_rotation self gamma r r_.
Proof.
  unfold coupling_rotation.
  rewrite dot_scale_l, column_overlap_dot. reflexivity.
Qed.

(** C3: for every angle [gamma], [apply_hamiltonian] emits, for each qubit
    [r] in [0..R-1], one rotation with angle
    [gamma * (0.5*CR[r] + 0.5*mu*FR[:,r].(rowsum(FR)-2))] and then, for each
    [r_] in [r+1..R-1], a controlled gate, a rotation with angle
    [gamma*0.5*FR[:,r].FR[:,r_]] and the controlled gate again;
    [apply_exco] emits the same structure with the local-field angle
    [gamma*0.5*mu*FR[:,r].(rowsum(FR)-2)].  The angles are stated entry by
    entry: [FR[:,r].(rowsum(FR)-2)] is
    [sum_f FR[f,r] * (sum_r' FR[f,r'] - 2)] and [FR[:,r].FR[:,r_]] is
    [sum_f FR[f,r] * FR[f,r_]].  The pairs coupled are those of the upper
    triangle: every unordered pair of distinct qubits exactly once, and no
    qubit with itself. *)
Theorem hamiltonian_circuit (self : QAOATailAssignment) (gamma : Q)
  (qc : QuantumCircuit) :
  wf self ->
  exists gh ge,
    apply_hamiltonian self gamma qc = (Ok tt, qc ++ gh)
    /\ circuit_eqv gh (ising_gates (hamiltonian_rotation self gamma)
                                   (coupling_rotation self gamma) (R self))
    /\ apply_exco self gamma qc = (Ok tt, qc ++ ge)
    /\ circuit_eqv ge (ising_gates (exco_rotation self gamma)
                                   (coupling_rotation self gamma) (R self))
    /\ circuit_eqv gh (hamiltonian_gates self gamma)
    /\ circuit_eqv ge (exco_gates self gamma)
    /\ map fst (local_rotations gh) = range 0 (R self)
    /\ map fst (local_rotations ge) = range 0 (R self)
    /\ coupled_pairs gh = upper_pairs (R self)
    /\ coupled_pairs ge = upper_pairs (R self)
    /\ (forall a b, In (a, b) (upper_pairs (R self)) <-> (a < b < R self)%nat)
    /\ (forall a b, (a < R self)%nat -> (b < R self)%nat -> a <> b ->
                    unordered_count a b (upper_pairs (R self)) = 1%nat).
Proof.
  intros Hwf. eexists. eexists.
  split; [apply apply_hamiltonian_run; exact Hwf |].
  split.
  { apply ising_gates_eqv.
    - intros r. apply hamiltonian_rotation_emitted. exact Hwf.
    - intros r r_. apply coupling_rotation_emitted. }
  split; [apply apply_exco_run |].
  split.
  { apply ising_gates_eqv.
    - intros r. apply exco_rotation_emitted. exact Hwf.
    - intros r r_. apply coupling_rotation_emitted. }
  split.
  { apply ising_gates_eqv.
    - intros r. apply hamiltonian_angle.
    - intros r r_. apply coupling_angle. }
  split.
  { apply ising_gates_eqv.
    - intros r. apply exco_angle.
    - intros r r_. apply coupling_angle. }
  unfold ising_gates.
  rewrite !local_rotations_blocks, !coupled_pairs_blocks, !map_map.
  cbn [fst]. rewrite !map_id.
  split; [reflexivity |]. split; [reflexivity |].
  split; [reflexivity |]. split; [reflexivity |].
  split.
  - intros a b. apply in_upper_pairs.
  - intros a b. apply upper_pairs_once.
Qed.

Lemma hamiltonian_circuit_witness :
  exists gh ge,
    apply_hamiltonian sampled_example (1 # 3) [] = (Ok tt, [] ++ gh)
    /\ circuit_eqv gh (ising_gates (hamiltonian_rotation sampled_example (1 # 3))
                                   (coupling_rotation sampled_example (1 # 3))
                                   (R sampled_example))
    /\ apply_exco sampled_example (1 # 3) [] = (Ok tt, [] ++ ge)
    /\ circuit_eqv ge (ising_gates (exco_rotation sampled_example (1 # 3))
                                   (coupling_rotation sampled_example (1 # 3))
                                   (R sampled_example))
    /\ circuit_eqv gh (hamiltonian_gates sampled_example (1 # 3))
    /\ circuit_eqv ge (exco_gates sampled_example (1 # 3))
    /\ map fst (local_rotations gh) = range 0 (R sampled_example)
    /\ map fst (local_rotations ge) = range 0 (R sampled_example)
    /\ coupled_pairs gh = upper_pairs (R sampled_example)
    /\ coupled_pairs ge = upper_pairs (R sampled_example)
    /\ (forall a b, In (a, b) (upper_pairs (R sampled_example))
                    <-> (a < b < R sampled_example)%nat)
    /\ (forall a b, (a < R sampled_example)%nat -> (b < R sampled_example)%nat ->
                    a <> b ->
                    unordered_count a b (upper_pairs (R sampled_example)) = 1%nat).
Proof.
  apply (hamiltonian_circuit sampled_example (1 # 3) []).
  split; [repeat constructor | reflexivity].
Defined.

(** On the example, with [gamma = 1/3]: the rotation of [apply_hamiltonian]
    on qubit 0 has angle [1/3 * (3/2 + 1/2 * (1*(1-2) + 1*(3-2))) = 1/2],
    and the coupling of qubits 0 and 1 has angle [1/3 * 1/2 * 1 = 1/6]. *)
Example hamiltonian_rotation_example :
  hamiltonian_rotation sampled_example (1 # 3) 0 == 1 # 2
  /\ exco_rotation sampled_example (1 # 3) 1 == 1 # 6
  /\ coupling_rotation sampled_example (1 # 3) 0 1 == 1 # 6
  /\ coupling_rotation sampled_example (1 # 3) 0 2 == 1 # 6.
Proof. repeat split; vm_compute; reflexivity. Qed.

Lemma cost_gates_eqv (self : QAOATailAssignment) (gamma : Q) :
  circuit_eqv
    (flat_map (fun r => [rz (gamma * ((1 # 2) * nth r (CR self) 0)) r])
              (range 0 (R self)))
    (cost_gates self gamma).
Proof.
  unfold circuit_eqv, cost_gates, local_field_cost.
  induction (range 0 (R self)) as [|r l IH]; cbn [flat_map map app].
  - constructor.
  - constructor; [split; reflexivity | exact IH].
Qed.

(** C4: for every [FR], [CR], [mu], angle and qubit [r], the local-field
    rotation that [apply_hamiltonian] emits on [r] has the angle of the
    rotation of [apply_cost] on [r] plus the angle of the local-field
    rotation of [apply_exco] on [r]; the two calls in sequence emit the
    gates of [apply_cost] followed by those of [apply_exco]. *)
Theorem combined_local_field (self : QAOATailAssignment) (gamma : Q)
  (r : nat) (qc : QuantumCircuit) :
  wf self -> (r < R self)%nat ->
  exists gh gc ge h c e,
    apply_hamiltonian self gamma qc = (Ok tt, qc ++ gh)
    /\ apply_cost self gamma qc = (Ok tt, qc ++ gc)
    /\ circuit_eqv gc (cost_gates self gamma)
    /\ apply_exco self gamma qc = (Ok tt, qc ++ ge)
    /\ (apply_cost self gamma ;; apply_exco self gamma)%circ qc
       = (Ok tt, qc ++ gc ++ ge)
    /\ local_angle gh r = Some h
    /\ local_angle gc r = Some c
    /\ local_angle ge r = Some e
    /\ h == c + e.
Proof.
  intros Hwf Hr.
  do 3 eexists.
  exists (gamma * ((1 # 2) * nth r (CR self) 0
                   + dot (scale ((1 # 2) * mu self) (column (FR self) r))
                         (rowsum_minus_2 self))).
  exists (gamma * ((1 # 2) * nth r (CR self) 0)).
  exists (gamma * dot (scale ((1 # 2) * mu self) (column (FR self) r))
                      (rowsum_minus_2 self)).
  split; [apply apply_hamiltonian_run; exact Hwf |].
  split; [apply apply_cost_run; exact Hwf |].
  split; [apply cost_gates_eqv |].
  split; [apply apply_exco_run |].
  split.
  { unfold cbind. rewrite apply_cost_run by exact Hwf.
    rewrite apply_exco_run. rewrite app_assoc. reflexivity. }
  split; [rewrite local_angle_ising by exact Hr; reflexivity |].
  split; [rewrite local_angle_rz by exact Hr; reflexivity |].
  split; [rewrite local_angle_ising by exact Hr; reflexivity |].
  ring.
Qed.

Lemma combined_local_field_witness :
  exists gh gc ge h c e,
    apply_hamiltonian sampled_example (1 # 3) [] = (Ok tt, [] ++ gh)
    /\ apply_cost sampled_example (1 # 3) [] = (Ok tt, [] ++ gc)
    /\ circuit_eqv gc (cost_gates sampled_example (1 # 3))
    /\ apply_exco sampled_example (1 # 3) [] = (Ok tt, [] ++ ge)
    /\ (apply_cost sampled_example (1 # 3) ;; apply_exco sampled_example (1 # 3))%circ []
       = (Ok tt, [] ++ gc ++ ge)
    /\ local_angle gh 1 = Some h
    /\ local_angle gc 1 = Some c
    /\ local_angle ge 1 = Some e
    /\ h == c + e.
Proof.
  apply (combined_local_field sampled_example (1 # 3) 1 []).
  - split; [repeat constructor | reflexivity].
  - unfold R. simpl. lia.
Defined.

(** ** Success probability from a statevector *)

Lemma mapM_total {A B} (f : A -> result B) (P : A -> Prop) (l : list A) :
  (forall a, P a -> exists b, f a = Ok b) ->
  Forall P l ->
  exists bs, mapM f l = Ok bs /\ length bs = length l.
Proof.
  intros Hf Hl. induction Hl as [|a l Ha Hl [bs [Hbs Hlen]]].
  - exists []. split; reflexivity.
  - destruct (Hf a Ha) as [b Hb]. exists (b :: bs). split.
    + cbn [mapM]. rewrite Hb. cbn [rbind]. rewrite Hbs. reflexivity.
    + cbn [length]. rewrite Hlen. reflexivity.
Qed.

Lemma vectorize_nonempty {B} (f : string -> result B) (xs : list string) :
  xs <> [] -> vectorize f xs = mapM f xs.
Proof. destruct xs; [congruence | reflexivity]. Qed.

Lemma dot_flagged (ind : list bool) (probs : list Q) :
  dot (map Q_of_bool ind) probs == np_sum (flagged ind probs).
Proof.
  unfold dot. revert probs.
  induction ind as [|i ind IH]; intros [|p probs]; cbn [map mul_elementwise flagged np_sum];
    try reflexivity.
  rewrite IH. destruct i; cbn [Q_of_bool np_sum]; ring.
Qed.

Lemma np_sum_nonneg (v : list Q) :
  Forall (fun p => 0 <= p) v -> 0 <= np_sum v.
Proof.
  induction 1 as [|p v Hp Hv IH]; cbn [np_sum]; lra.
Qed.

Lemma flagged_bounds (ind : list bool) (probs : list Q) :
  Forall (fun p => 0 <= p) probs ->
  0 <= np_sum (flagged ind probs) <= np_sum probs.
Proof.
  intros Hp. revert ind.
  induction Hp as [|p probs Hp0 Hp IH]; intros [|i ind]; cbn [flagged np_sum].
  - lra.
  - lra.
  - pose proof (np_sum_nonneg probs Hp). lra.
  - specialize (IH ind). destruct i; cbn [np_sum]; lra.
Qed.

(** C5: with a statevector backend, for a probability vector indexed like
    the enumeration of bit strings, [successProbability] returns the dot
    product of the indicator vector of [is_solution] with the
    probabilities; that is the sum of the probabilities of the solution
    states, and it lies between 0 and 1. *)
Theorem successProbability_exact (g : Globals) (self : QAOATailAssignment)
  (job : Job) (probs : list Q) :
  wf self ->
  statevector_backend self = true ->
  statevector_probs job = Ok probs ->
  state_strings self <> [] ->
  Forall (fun s => is_bitstring s = true /\ String.length s = R self)
         (state_strings self) ->
  length probs = length (state_strings self) ->
  Forall (fun p => 0 <= p) probs ->
  np_sum probs == 1 ->
  exists ind v,
    mapM (is_solution self) (state_strings self) = Ok ind
    /\ successProbability g self job = Ok v
    /\ v == dot (map Q_of_bool ind) probs
    /\ v == np_sum (flagged ind probs)
    /\ 0 <= v <= 1.
Proof.
  intros Hwf Hmode Hprobs Hne Hstr Hlen Hpos Hsum.
  assert (Htot : forall s, is_bitstring s = true /\ String.length s = R self ->
                           exists t, is_solution self s = Ok t).
  { intros s [Hb Hl]. eexists. apply is_solution_eval; assumption. }
  destruct (mapM_total (is_solution self) _ (state_strings self) Htot Hstr)
    as [ind [Hind Hlenind]].
  exists ind, (dot (map Q_of_bool ind) probs).
  split; [exact Hind |]. split.
  - unfold successProbability. rewrite Hmode.
    unfold successProbability_statevector. rewrite Hprobs. cbn [rbind].
    rewrite vectorize_nonempty by exact Hne. rewrite Hind. cbn [rbind].
    unfold matmul_vv. rewrite length_map, Hlenind, Hlen, Nat.eqb_refl.
    reflexivity.
  - split; [reflexivity |]. split; [apply dot_flagged |].
    rewrite dot_flagged. pose proof (flagged_bounds ind probs Hpos). lra.
Qed.

Lemma successProbability_exact_witness :
  exists ind v,
    mapM (is_solution exact_example) (state_strings exact_example) = Ok ind
    /\ successProbability module_globals exact_example statevector_job_example = Ok v
    /\ v == dot (map Q_of_bool ind) [0; 1 # 2; 0; 0; 0; 0; 1 # 4; 1 # 4]
    /\ v == np_sum (flagged ind [0; 1 # 2; 0; 0; 0; 0; 1 # 4; 1 # 4])
    /\ 0 <= v <= 1.
Proof.
  apply (successProbability_exact module_globals exact_example
           statevector_job_example [0; 1 # 2; 0; 0; 0; 0; 1 # 4; 1 # 4]).
  - split; [repeat constructor | reflexivity].
  - reflexivity.
  - reflexivity.
  - discriminate.
  - repeat constructor.
  - reflexivity.
  - repeat constructor; unfold Qle; simpl; lia.
  - vm_compute. reflexivity.
Defined.

(** ** Success probability from counts *)

Example is_solution_001 : is_solution sampled_example "001" = Ok true.
Proof. reflexivity. Qed.

Example is_solution_110 : is_solution sampled_example "110" = Ok false.
Proof. reflexivity. Qed.

Example measured_keys_example :
  measured 3 1 = "001" /\ measured 3 6 = "110".
Proof. split; reflexivity. Qed.

(** Without a global [rN] the sampled branch raises as soon as a result
    block holds a count. *)
Lemma sp_results_needs_rN (g : Globals) (r : ExperimentResult)
  (rs : list ExperimentResult) (kc : N * nat) (cs : list (N * nat)) (s : Q) :
  g_rN g = None -> counts r = Some (kc :: cs) ->
  sp_results g (r :: rs) s = Raise (NameError "rN").
Proof.
  intros Hg Hc. cbn [sp_results]. unfold data_counts. rewrite Hc.
  cbn [rbind sp_counts]. destruct kc as [key count]. rewrite Hg. reflexivity.
Qed.

(** With the three names bound to the object's own data the example gives
    the fraction 7/10. *)
Lemma successProbability_bound_example :
  exists v,
    successProbability (globals_of sampled_example) sampled_example job_example
    = Ok v
    /\ v == 7 # 10.
Proof. eexists. split; [vm_compute; reflexivity | vm_compute; reflexivity]. Qed.

(** The sampled branch never reads the object. *)
Lemma successProbability_counts_ignores_self (g : Globals)
  (self self' : QAOATailAssignment) (job : Job) :
  statevector_backend self = false -> statevector_backend self' = false ->
  successProbability g self job = successProbability g self' job.
Proof.
  intros H H'. unfold successProbability. rewrite H, H'. reflexivity.
Qed.

(** Hence no binding of the global names makes the sampled branch return
    the fraction of solutions for every object. *)
Lemma no_globals_fit (g : Globals) :
  exists self,
    wf self /\ statevector_backend self = false
    /\ forall v, successProbability g self one_shot_job = Ok v ->
                 ~ v == solution_fraction_job self one_shot_job.
Proof.
  destruct (successProbability g covering_example one_shot_job) as [v|e] eqn:Hrun.
  - destruct (Qeq_dec v 1) as [Hv|Hv].
    + exists missing_example.
      split; [split; [repeat constructor | reflexivity] |].
      split; [reflexivity |].
      intros v' Hv'.
      rewrite (successProbability_counts_ignores_self g missing_example
                 covering_example) in Hv' by reflexivity.
      assert (v' = v) by congruence. subst v'.
      rewrite Hv. vm_compute. discriminate.
    + exists covering_example.
      split; [split; [repeat constructor | reflexivity] |].
      split; [reflexivity |].
      intros v' Hv'. assert (v' = v) by congruence. subst v'.
      intros Heq. apply Hv. rewrite Heq. vm_compute. reflexivity.
  - exists covering_example.
    split; [split; [repeat constructor | reflexivity] |].
    split; [reflexivity |].
    intros v' Hv'. congruence.
Qed.

(** C6: in sampled mode [successProbability] should return the fraction of
    shots whose bit string satisfies [is_solution], 7/10 for the counts
    "001": 7 and "110": 3.  The sampled branch instead reads the global
    names [rN], [is_Solution] and [FR], which the module does not bind:
    on the example it raises [NameError]. *)
Theorem successProbability_sampled_example :
  successProbability module_globals sampled_example job_example
  = Raise (NameError "rN").
Proof. reflexivity. Qed.

(** ** Mode selection *)

Lemma py_in_In (x : string) (l : list string) :
  py_in x l = true <-> In x l.
Proof.
  unfold py_in. rewrite existsb_exists. split.
  - intros [y [Hy Heq]]. apply String.eqb_eq in Heq. subst. exact Hy.
  - intros H. exists x. split; [exact H | apply String.eqb_refl].
Qed.

Lemma prefix_empty (s : string) : String.prefix "" s = true.
Proof. destruct s; reflexivity. Qed.

Lemma py_contains_tail (w : string) (c : ascii) (s : string) :
  py_contains w s = true -> py_contains w (String c s) = true.
Proof.
  intros H. cbn [py_contains]. rewrite H.
  destruct (String.prefix w (String c s)); reflexivity.
Qed.

Lemma py_contains_prefix (w s : string) :
  String.prefix w s = true -> py_contains w s = true.
Proof. intros H. destruct s; cbn [py_contains]; rewrite H; reflexivity. Qed.

Lemma py_split_head (sep : ascii) (s : string) :
  exists w ws, py_split sep s = w :: ws /\ String.prefix w s = true.
Proof.
  induction s as [|c s [w [ws [Hs Hp]]]]; cbn [py_split].
  - exists "", []. split; reflexivity.
  - destruct (Ascii.eqb c sep).
    + exists "", (py_split sep s). split; reflexivity.
    + rewrite Hs. exists (String c w), ws. split; [reflexivity |].
      cbn [String.prefix]. destruct (ascii_dec c c); [exact Hp | congruence].
Qed.

Lemma py_split_substring (sep : ascii) (w s : string) :
  In w (py_split sep s) -> py_contains w s = true.
Proof.
  revert w. induction s as [|c s IH]; intros w; cbn [py_split].
  - intros [<-|[]]. reflexivity.
  - destruct (Ascii.eqb c sep).
    + intros [<-|Hin].
      * apply py_contains_prefix, prefix_empty.
      * apply py_contains_tail, IH, Hin.
    + destruct (py_split_head sep s) as [w0 [ws [Hs Hp]]].
      rewrite Hs in *. intros [<-|Hin].
      * apply py_contains_prefix. cbn [String.prefix].
        destruct (ascii_dec c c); [exact Hp | congruence].
      * apply py_contains_tail, IH. right. exact Hin.
Qed.

Lemma statevector_backend_token (self : QAOATailAssignment) :
  statevector_backend self = true
  <-> In "statevector" (py_split "_"%char (backend_name self)).
Proof. apply py_in_In. Qed.

(** ** What the circuit builder appends *)

Lemma only_appends_cret {A} (P : Gate -> Prop) (a : A) : only_appends P (cret a).
Proof. intros qc. exists []. rewrite app_nil_r. split; [reflexivity | constructor]. Qed.

Lemma only_appends_lift {A} (P : Gate -> Prop) (r : result A) :
  only_appends P (lift r).
Proof. intros qc. exists []. rewrite app_nil_r. split; [reflexivity | constructor]. Qed.

Lemma only_appends_emit (P : Gate -> Prop) (g : Gate) :
  P g -> only_appends P (emit g).
Proof. intros Hg qc. exists [g]. split; [reflexivity | repeat constructor; exact Hg]. Qed.

Lemma only_appends_cbind {A B} (P : Gate -> Prop) (m : Circ A) (k : A -> Circ B) :
  only_appends P m -> (forall a, only_appends P (k a)) ->
  only_appends P (cbind m k).
Proof.
  intros Hm Hk qc. unfold cbind.
  destruct (Hm qc) as [gs [Hgs HP]].
  destruct (m qc) as [[a|e] qc']; cbn [snd] in Hgs; subst qc'.
  - destruct (Hk a (qc ++ gs)) as [gs' [Hgs' HP']].
    exists (gs ++ gs'). rewrite Hgs', app_assoc.
    split; [reflexivity | apply Forall_app; split; assumption].
  - exists gs. split; [reflexivity | exact HP].
Qed.

Lemma only_appends_for {A} (P : Gate -> Prop) (body : A -> Circ unit)
  (l : list A) :
  (forall a, only_appends P (body a)) -> only_appends P (for_ l body).
Proof.
  intros Hb. induction l as [|a l IH]; cbn [for_].
  - apply only_appends_cret.
  - apply only_appends_cbind; [apply Hb | intros _; exact IH].
Qed.

Create HintDb appends.
#[local] Hint Resolve only_appends_cret only_appends_lift only_appends_emit
  only_appends_cbind only_appends_for : appends.

Lemma not_measure_rz (a : Q) (q : nat) : not_measure (rz a q).
Proof. discriminate. Qed.

Lemma not_measure_cx (c t : nat) : not_measure (cx c t).
Proof. discriminate. Qed.

Lemma not_measure_rx (a : Q) : not_measure (rx_all a).
Proof. discriminate. Qed.

Lemma not_measure_barrier : not_measure barrier.
Proof. discriminate. Qed.

#[local] Hint Resolve not_measure_rz not_measure_cx not_measure_rx
  not_measure_barrier : appends.

Lemma apply_hamiltonian_no_measure (self : QAOATailAssignment) (gamma : Q) :
  only_appends not_measure (apply_hamiltonian self gamma).
Proof.
  unfold apply_hamiltonian, couple.
  apply only_appends_for. intros r.
  apply only_appends_cbind; [auto with appends |]. intros c.
  apply only_appends_cbind; [auto with appends |]. intros _.
  apply only_appends_for. intros r_.
  repeat (apply only_appends_cbind; [auto with appends |]; intros _).
  auto with appends.
Qed.

Lemma layer_no_measure (self : QAOATailAssignment) (gammas betas : list Q)
  (d : nat) :
  only_appends not_measure (layer self gammas betas d).
Proof.
  unfold layer, mix_states.
  apply only_appends_cbind; [auto with appends |]. intros gamma.
  apply only_appends_cbind; [auto with appends |]. intros beta.
  apply only_appends_cbind; [apply apply_hamiltonian_no_measure |]. intros _.
  apply only_appends_cbind;
    [destruct (usebarrier self); auto with appends |]. intros _.
  apply only_appends_cbind; [auto with appends |]. intros _.
  destruct (usebarrier self); auto with appends.
Qed.

Lemma ansatz_no_measure (initial_state : nat -> Circ unit)
  (self : QAOATailAssignment) (params : list Q) (qc : QuantumCircuit) :
  exists gs,
    snd (ansatz initial_state self params qc)
    = snd (initial_state (R self) qc) ++ gs
    /\ Forall not_measure gs.
Proof.
  unfold ansatz, cbind.
  destruct (initial_state (R self) qc) as [[u|e] qc0]; cbn [snd].
  - apply (only_appends_for not_measure). intros d. apply layer_no_measure.
  - exists []. rewrite app_nil_r. split; [reflexivity | constructor].
Qed.

Lemma createCircuit_final (initial_state : nat -> Circ unit)
  (self : QAOATailAssignment) (params : list Q) (qc : QuantumCircuit) :
  createCircuit initial_state self params qc
  = match ansatz initial_state self params qc with
    | (Ok _, body) => (Ok (body ++ final_gates self), body ++ final_gates self)
    | (Raise e, body) => (Raise e, body)
    end.
Proof.
  unfold createCircuit, cbind, final_gates.
  destruct (ansatz initial_state self params qc) as [[u|e] body].
  - destruct (statevector_backend self); cbn [negb].
    + unfold cret, get_qc. rewrite app_nil_r. reflexivity.
    + unfold emit, get_qc. reflexivity.
  - reflexivity.
Qed.

Lemma for_ok {A} (body : A -> Circ unit) (l : list A) :
  (forall a, In a l -> forall qc, exists qc', body a qc = (Ok tt, qc')) ->
  forall qc, exists qc', for_ l body qc = (Ok tt, qc').
Proof.
  induction l as [|a l IH]; intros H qc; cbn [for_].
  - exists qc. reflexivity.
  - unfold cbind. destruct (H a (or_introl eq_refl) qc) as [qc1 H1].
    rewrite H1. apply IH. intros a' Ha'. apply H. right. exact Ha'.
Qed.

Lemma slice_step_2_length {A} (l : list A) :
  (length l <= 2 * length (slice_step 2 0 l))%nat
  /\ (length l <= 2 * length (slice_step 2 1 l) + 1)%nat.
Proof.
  induction l as [|a l [IH0 IH1]]; cbn [slice_step length Nat.sub].
  - lia.
  - lia.
Qed.

Lemma getitem_ok {A} (v : list A) (i : nat) :
  (i < length v)%nat -> exists a, getitem v i = Ok a.
Proof.
  intros Hi. unfold getitem.
  destruct (nth_error v i) as [a|] eqn:Hnth.
  - exists a. reflexivity.
  - apply nth_error_None in Hnth. lia.
Qed.

Lemma layer_ok (self : QAOATailAssignment) (gammas betas : list Q) (d : nat)
  (qc : QuantumCircuit) :
  wf self -> (d < length gammas)%nat -> (d < length betas)%nat ->
  exists qc', layer self gammas betas d qc = (Ok tt, qc').
Proof.
  intros Hwf Hg Hb.
  destruct (getitem_ok gammas d Hg) as [gamma Hgamma].
  destruct (getitem_ok betas d Hb) as [beta Hbeta].
  unfold layer, cbind, lift. rewrite Hgamma, Hbeta.
  rewrite apply_hamiltonian_run by exact Hwf.
  unfold mix_states, emit, cret.
  destruct (usebarrier self); eexists; reflexivity.
Qed.

Lemma ansatz_ok (initial_state : nat -> Circ unit)
  (self : QAOATailAssignment) (params : list Q) (qc : QuantumCircuit) :
  wf self ->
  fst (initial_state (R self) qc) = Ok tt ->
  (2 * depth self <= length params)%nat ->
  exists body, ansatz initial_state self params qc = (Ok tt, body).
Proof.
  intros Hwf Hinit Hlen. unfold ansatz, cbind.
  destruct (initial_state (R self) qc) as [r qc0]. cbn [fst] in Hinit. subst r.
  apply for_ok. intros d Hd qc1. apply in_range in Hd.
  destruct (slice_step_2_length params) as [H0 H1].
  apply layer_ok; [exact Hwf | lia | lia].
Qed.

(** C7, as the code has it: a statevector backend is one whose name, split
    at every underscore, has a component equal to "statevector"; such a
    name contains the substring "statevector".  For such a backend
    [createCircuit] returns the circuit of the layers, to which it appends
    nothing, and the statistics extractors take the statevector branch; for
    every other backend it appends one measurement and the extractors take
    the counts branch.  The layers themselves hold no measurement, and
    they are built without error when the object is well formed, the base
    class prepares the circuit and there are two angles per layer. *)
Theorem mode_selection (initial_state : nat -> Circ unit) (g : Globals)
  (self : QAOATailAssignment) (params : list Q) (job : Job)
  (qc : QuantumCircuit) :
  (statevector_backend self = true
   <-> In "statevector" (py_split "_"%char (backend_name self)))
  /\ (statevector_backend self = true ->
      py_contains "statevector" (backend_name self) = true)
  /\ createCircuit initial_state self params qc
     = match ansatz initial_state self params qc with
       | (Ok _, body) =>
           (Ok (body ++ (if statevector_backend self then [] else [measure_all])),
            body ++ (if statevector_backend self then [] else [measure_all]))
       | (Raise e, body) => (Raise e, body)
       end
  /\ (exists gs,
        snd (ansatz initial_state self params qc)
        = snd (initial_state (R self) qc) ++ gs
        /\ Forall not_measure gs)
  /\ (wf self -> fst (initial_state (R self) qc) = Ok tt ->
      (2 * depth self <= length params)%nat ->
      exists body, ansatz initial_state self params qc = (Ok tt, body))
  /\ successProbability g self job
     = (if statevector_backend self
        then successProbability_statevector self job
        else successProbability_counts g job)
  /\ (rows (FR self) <> [] ->
      measurementStatistics self job
      = (if statevector_backend self
         then measurementStatistics_statevector self job neg_inf
         else measurementStatistics_counts self (R self) job neg_inf)).
Proof.
  split; [apply statevector_backend_token |].
  split.
  { intros H. apply statevector_backend_token in H.
    apply (py_split_substring _ _ _ H). }
  split; [apply createCircuit_final |].
  split; [apply ansatz_no_measure |].
  split; [apply ansatz_ok |].
  split; [reflexivity |].
  intros Hrows. unfold measurementStatistics.
  destruct (rows (FR self)) as [|row rest]; [congruence | reflexivity].
Qed.

Lemma mode_selection_witness :
  py_contains "statevector" (backend_name exact_example) = true
  /\ (exists body,
        ansatz fresh_circuit exact_example [1 # 3; 1 # 5] [] = (Ok tt, body))
  /\ measurementStatistics exact_example statevector_job_example
     = measurementStatistics_statevector exact_example statevector_job_example
         neg_inf.
Proof.
  destruct (mode_selection fresh_circuit module_globals exact_example
              [1 # 3; 1 # 5] statevector_job_example [])
    as [_ [Hsub [_ [_ [Htotal [_ Hms]]]]]].
  split; [apply Hsub; reflexivity |].
  split.
  - apply Htotal.
    + split; [repeat constructor | reflexivity].
    + reflexivity.
    + simpl. lia.
  - apply Hms. discriminate.
Defined.

(** The claim C7 read with "contains the substring": the backend name
    "statevectors_sim" contains "statevector", yet the object is not in
    statevector mode and [createCircuit] appends the measurement. *)
Lemma mode_selection_counterexample :
  py_contains "statevector" (backend_name misnamed_example) = true
  /\ statevector_backend misnamed_example = false
  /\ exists body,
       createCircuit fresh_circuit misnamed_example [1 # 3; 1 # 5] []
       = (Ok (body ++ [measure_all]), body ++ [measure_all]).
Proof.
  split; [reflexivity |]. split; [reflexivity |].
  exists (removelast
            (snd (createCircuit fresh_circuit misnamed_example [1 # 3; 1 # 5] []))).
  vm_compute. reflexivity.
Qed.

(** ** Results without data *)

Lemma sp_results_empty (g : Globals) (rs : list ExperimentResult) (s : Q) :
  Forall (fun r => counts r = Some []) rs -> sp_results g rs s = Ok s.
Proof.
  induction 1 as [|r rs Hr Hrs IH]; cbn [sp_results].
  - reflexivity.
  - unfold data_counts. rewrite Hr. cbn [rbind sp_counts]. exact IH.
Qed.

Lemma ms_results_empty (self : QAOATailAssignment) (R_ : nat)
  (rs : list ExperimentResult) (best : xfloat) :
  Forall (fun r => counts r = Some []) rs ->
  ms_results self R_ rs best = Ok (repeat 0 (length rs), best).
Proof.
  induction 1 as [|r rs Hr Hrs IH]; cbn [ms_results].
  - reflexivity.
  - unfold data_counts. rewrite Hr. cbn [rbind ms_counts snd fst].
    rewrite IH. reflexivity.
Qed.

Lemma measurementStatistics_rows (self : QAOATailAssignment) (job : Job) :
  rows (FR self) <> [] ->
  measurementStatistics self job
  = (if statevector_backend self
     then measurementStatistics_statevector self job neg_inf
     else measurementStatistics_counts self (R self) job neg_inf).
Proof.
  intros Hrows. unfold measurementStatistics.
  destruct (rows (FR self)) as [|row rest]; [congruence | reflexivity].
Qed.

(** The claim C9 fails on empty counts: in sampled mode both extractors
    return zero statistics without any error. *)
Lemma no_data_counterexample :
  statevector_backend sampled_example = false
  /\ successProbability module_globals sampled_example empty_job_example = Ok 0
  /\ measurementStatistics sampled_example empty_job_example
     = Ok ([0], None, neg_inf).
Proof. repeat split. Qed.

(** C9, as the code has it: a result that lacks the field read by the
    selected mode makes both extractors fail with the error of that access
    (the backend's error when there is no statevector, [AttributeError]
    when the first result block has no counts).  Empty counts are not an
    error: in sampled mode, when every result block has empty counts,
    [successProbability] returns 0 and [measurementStatistics] returns the
    expectation 0 for every block, no variance, and [-inf] as best cost. *)
Theorem extractors_without_data (g : Globals) (self : QAOATailAssignment)
  (job : Job) :
  rows (FR self) <> [] ->
  (statevector_backend self = false ->
   Forall (fun r => counts r = Some []) (results job) ->
   successProbability g self job = Ok 0
   /\ measurementStatistics self job
      = Ok (repeat 0 (length (results job)), None, neg_inf))
  /\ (statevector_backend self = false ->
      forall r rs, results job = r :: rs -> counts r = None ->
      successProbability g self job = Raise (AttributeError "counts")
      /\ measurementStatistics self job = Raise (AttributeError "counts"))
  /\ (statevector_backend self = true ->
      forall e, statevector_probs job = Raise e ->
      successProbability g self job = Raise e
      /\ measurementStatistics self job = Raise e).
Proof.
  intros Hrows. rewrite (measurementStatistics_rows self job Hrows).
  unfold successProbability. split; [| split].
  - intros Hmode Hempty. rewrite Hmode. split.
    + unfold successProbability_counts. apply sp_results_empty, Hempty.
    + unfold measurementStatistics_counts.
      rewrite ms_results_empty by exact Hempty. reflexivity.
  - intros Hmode r rs Hrs Hr. rewrite Hmode.
    unfold successProbability_counts, measurementStatistics_counts.
    rewrite Hrs. cbn [sp_results ms_results]. unfold data_counts.
    rewrite Hr. split; reflexivity.
  - intros Hmode e He. rewrite Hmode.
    unfold successProbability_statevector, measurementStatistics_statevector.
    rewrite He. split; reflexivity.
Qed.

Lemma extractors_without_data_witness :
  successProbability module_globals sampled_example empty_job_example = Ok 0
  /\ measurementStatistics sampled_example empty_job_example
     = Ok (repeat 0 (length (results empty_job_example)), None, neg_inf).
Proof.
  destruct (extractors_without_data module_globals sampled_example
              empty_job_example) as [Hempty _].
  - discriminate.
  - apply Hempty.
    + reflexivity.
    + repeat constructor.
Defined.

(** ** Measured bit strings *)

Lemma length_append (s1 s2 : string) :
  String.length (s1 ++ s2)%string = (String.length s1 + String.length s2)%nat.
Proof. induction s1 as [|c s1 IH]; cbn; [reflexivity | rewrite IH; reflexivity]. Qed.

Lemma is_bitstring_append (s1 s2 : string) :
  is_bitstring s1 = true -> is_bitstring s2 = true ->
  is_bitstring (s1 ++ s2)%string = true.
Proof.
  unfold is_bitstring. intros H1 H2.
  induction s1 as [|c s1 IH]; cbn in *.
  - exact H2.
  - apply andb_true_iff in H1. destruct H1 as [Hc H1].
    rewrite Hc. apply IH. exact H1.
Qed.

Lemma zeros_length (n : nat) : String.length (zeros n) = n.
Proof. induction n as [|n IH]; cbn; [reflexivity | rewrite IH; reflexivity]. Qed.

Lemma zeros_bitstring (n : nat) : is_bitstring (zeros n) = true.
Proof. induction n as [|n IH]; [reflexivity | exact IH]. Qed.

Lemma bin_digits_length (p : positive) (acc : string) :
  String.length (bin_digits p acc) = (Pos.size_nat p + String.length acc)%nat.
Proof.
  revert acc. induction p as [p IH|p IH|]; intros acc; cbn [bin_digits Pos.size_nat].
  - rewrite IH. cbn. lia.
  - rewrite IH. cbn. lia.
  - reflexivity.
Qed.

Lemma bin_digits_bitstring (p : positive) (acc : string) :
  is_bitstring acc = true -> is_bitstring (bin_digits p acc) = true.
Proof.
  revert acc. induction p as [p IH|p IH|]; intros acc Hacc; cbn [bin_digits].
  - apply IH. exact Hacc.
  - apply IH. exact Hacc.
  - exact Hacc.
Qed.

Lemma size_nat_bound (p : positive) (n : nat) :
  (Pos.to_nat p < 2 ^ n)%nat -> (Pos.size_nat p <= n)%nat.
Proof.
  revert n. induction p as [p IH|p IH|]; intros [|n] H; cbn [Pos.size_nat];
    cbn [Nat.pow] in H.
  - rewrite Pos2Nat.inj_xI in H. lia.
  - rewrite Pos2Nat.inj_xI in H. apply le_n_S, IH. lia.
  - rewrite Pos2Nat.inj_xO in H. pose proof (Pos2Nat.is_pos p). lia.
  - rewrite Pos2Nat.inj_xO in H. apply le_n_S, IH. lia.
  - rewrite Pos2Nat.inj_1 in H. lia.
  - lia.
Qed.

Lemma measured_bitstring (n : nat) (key : N) :
  (0 < n)%nat -> (N.to_nat key < 2 ^ n)%nat ->
  is_bitstring (measured n key) = true /\ String.length (measured n key) = n.
Proof.
  intros Hn Hkey. unfold measured, zfill. split.
  - apply is_bitstring_append; [apply zeros_bitstring |].
    destruct key as [|p]; [reflexivity |].
    apply bin_digits_bitstring. reflexivity.
  - rewrite length_append, zeros_length.
    destruct key as [|p]; cbn [format_b].
    + cbn [String.length]. lia.
    + rewrite bin_digits_length. cbn [String.length].
      pose proof (size_nat_bound p n Hkey). lia.
Qed.

(** ** The running maximum *)

Lemma xle_refl (a : xfloat) : xle a a.
Proof. destruct a; cbn; [exact I | apply Qle_refl]. Qed.

Lemma xle_trans (a b c : xfloat) : xle a b -> xle b c -> xle a c.
Proof.
  destruct a, b, c; cbn; try tauto. apply Qle_trans.
Qed.

Lemma py_max_ge_l (best : xfloat) (c : Q) : xle best (py_max best c).
Proof.
  destruct best as [|q]; cbn; [exact I |].
  destruct (Qlt_le_dec q c); cbn; lra.
Qed.

Lemma py_max_ge_r (best : xfloat) (c f : Q) :
  f == c -> xle (fin f) (py_max best c).
Proof.
  intros Hf. destruct best as [|q]; cbn; [lra |].
  destruct (Qlt_le_dec q c); cbn; lra.
Qed.

Lemma py_max_cases (best : xfloat) (c : Q) :
  py_max best c = best \/ py_max best c = fin c.
Proof.
  destruct best as [|q]; cbn; [right; reflexivity |].
  destruct (Qlt_le_dec q c); auto.
Qed.

(** ** Success probability from counts, with the global names bound *)

Lemma is_solution_with_FR (self : QAOATailAssignment) (b : string) :
  is_solution (with_FR self (FR self)) b = is_solution self b.
Proof. reflexivity. Qed.

Lemma sp_counts_bound (self : QAOATailAssignment) (n_shots : nat)
  (cs : list (N * nat)) :
  wf self -> (0 < R self)%nat -> (0 < n_shots)%nat ->
  Forall (fun kc => (N.to_nat (fst kc) < 2 ^ R self)%nat) cs ->
  forall s,
  exists s',
    sp_counts (globals_of self) n_shots cs s = Ok s'
    /\ s' == s + solution_fraction self n_shots cs.
Proof.
  intros Hwf HR Hshots Hcs.
  induction Hcs as [|[key count] cs Hkey Hcs IH]; intros s.
  - exists s. split; [reflexivity |]. unfold solution_fraction. cbn [map np_sum]. ring.
  - cbn [fst] in Hkey.
    destruct (measured_bitstring (R self) key HR Hkey) as [Hb Hl].
    destruct (is_solution_covers self _ Hwf Hb Hl) as [t [Ht _]].
    cbn [sp_counts globals_of g_rN g_is_Solution g_FR lookup rbind].
    rewrite is_solution_with_FR. fold (measured (R self) key). rewrite Ht.
    cbn [rbind]. unfold solution_fraction. cbn [map np_sum fst snd].
    rewrite Ht. fold (solution_fraction self n_shots cs).
    destruct t.
    + unfold py_div. destruct n_shots as [|n]; [lia |]. cbn [rbind].
      destruct (IH (s + Q_of_nat count / Q_of_nat (S n))) as [s' [Hrun Hs']].
      exists s'. split; [exact Hrun |]. rewrite Hs'. ring.
    + cbn [rbind]. destruct (IH s) as [s' [Hrun Hs']].
      exists s'. split; [exact Hrun |]. rewrite Hs'. ring.
Qed.

(** Were [rN], [is_Solution] and [FR] bound to the object's own [R],
    [is_solution] and [FR], the sampled branch would return the fraction
    of shots that are solutions. *)
Lemma successProbability_counts_bound (self : QAOATailAssignment) (job : Job) :
  wf self -> statevector_backend self = false -> (0 < R self)%nat ->
  Forall (good_result self) (results job) ->
  exists v,
    successProbability (globals_of self) self job = Ok v
    /\ v == solution_fraction_job self job.
Proof.
  intros Hwf Hmode HR Hgood. unfold successProbability. rewrite Hmode.
  unfold successProbability_counts, solution_fraction_job.
  assert (Hgen : forall s, exists v,
             sp_results (globals_of self) (results job) s = Ok v
             /\ v == s + np_sum (map (fun r => match counts r with
                                               | Some cs => solution_fraction self (shots r) cs
                                               | None => 0
                                               end) (results job))).
  { induction Hgood as [|r rs [Hshots [cs [Hcounts Hcs]]] Hrs IH]; intros s.
    - exists s. split; [reflexivity |]. cbn [map np_sum]. ring.
    - destruct (sp_counts_bound self (shots r) cs Hwf HR Hshots Hcs s)
        as [s1 [Hrun1 Hs1]].
      destruct (IH s1) as [v [Hrun Hv]].
      exists v. cbn [sp_results]. unfold data_counts. rewrite Hcounts.
      cbn [rbind]. rewrite Hrun1. cbn [rbind].
      split; [exact Hrun |].
      rewrite Hv, Hs1. cbn [map np_sum]. rewrite Hcounts. ring. }
  destruct (Hgen 0) as [v [Hrun Hv]].
  exists v. split; [exact Hrun |]. rewrite Hv. ring.
Qed.

(** ** Measurement statistics from counts *)

Section Sampled.

Variable self : QAOATailAssignment.
Hypothesis Hwf : wf self.
Hypothesis HR : (0 < R self)%nat.

Lemma cost_measured (key : N) :
  (N.to_nat key < 2 ^ R self)%nat ->
  exists c, cost self (measured (R self) key) = Ok c /\ c == measured_cost self key.
Proof.
  intros Hkey.
  destruct (measured_bitstring (R self) key HR Hkey) as [Hb Hl].
  apply cost_formula_correct; assumption.
Qed.

Lemma ms_counts_spec (n_shots : nat) (cs : list (N * nat)) :
  (0 < n_shots)%nat ->
  Forall (fun kc => (N.to_nat (fst kc) < 2 ^ R self)%nat) cs ->
  forall E best,
  exists E' best',
    ms_counts self (R self) n_shots cs E best = Ok (E', best')
    /\ E' == E + np_sum (map (fun kc => measured_cost self (fst kc) * Q_of_nat (snd kc)
                                        / Q_of_nat n_shots) cs)
    /\ xle best best'
    /\ (forall kc, In kc cs -> xle (fin (measured_cost self (fst kc))) best')
    /\ (best' = best
        \/ exists kc c, In kc cs /\ best' = fin c /\ c == measured_cost self (fst kc)).
Proof.
  intros Hshots Hcs.
  induction Hcs as [|[key count] cs Hkey Hcs IH]; intros E best.
  - exists E, best. cbn [ms_counts map np_sum].
    split; [reflexivity |]. split; [ring |]. split; [apply xle_refl |].
    split; [intros kc [] | left; reflexivity].
  - cbn [fst] in Hkey.
    destruct (cost_measured key Hkey) as [c [Hc Hval]].
    unfold measured in Hc.
    destruct (IH (E + c * Q_of_nat count / Q_of_nat n_shots) (py_max best c))
      as [E' [best' [Hrun [HE [Hle [Hall Hatt]]]]]].
    exists E', best'. cbn [ms_counts]. rewrite Hc. cbn [rbind].
    unfold np_div. destruct n_shots as [|n]; [lia |]. cbn [rbind].
    split; [exact Hrun |].
    split.
    { rewrite HE. cbn [map np_sum fst snd]. rewrite Hval. ring. }
    split.
    { apply xle_trans with (py_max best c); [apply py_max_ge_l | exact Hle]. }
    split.
    { intros kc [<-|Hin].
      - cbn [fst]. apply xle_trans with (py_max best c); [| exact Hle].
        apply py_max_ge_r. symmetry. exact Hval.
      - apply Hall, Hin. }
    destruct Hatt as [Hsame|[kc [c' [Hin [Hb' Hc']]]]].
    + destruct (py_max_cases best c) as [Hm|Hm].
      * left. congruence.
      * right. exists (key, count), c.
        split; [left; reflexivity |]. split; [congruence | exact Hval].
    + right. exists kc, c'. split; [right; exact Hin | split; assumption].
Qed.

Lemma ms_results_spec (rs : list ExperimentResult) :
  Forall (good_result self) rs ->
  forall best,
  exists Es best',
    ms_results self (R self) rs best = Ok (Es, best')
    /\ Forall2 (fun r E => exists cs, counts r = Some cs
                                      /\ E == average_cost self r cs) rs Es
    /\ xle best best'
    /\ (forall key, In key (measured_keys rs) -> xle (fin (measured_cost self key)) best')
    /\ (best' = best
        \/ exists key c, In key (measured_keys rs) /\ best' = fin c
                         /\ c == measured_cost self key).
Proof.
  intros Hrs.
  induction Hrs as [|r rs [Hshots [cs [Hcounts Hcs]]] Hrs IH]; intros best.
  - exists [], best. cbn [ms_results measured_keys flat_map].
    split; [reflexivity |]. split; [constructor |].
    split; [apply xle_refl |]. split; [intros key [] | left; reflexivity].
  - destruct (ms_counts_spec (shots r) cs Hshots Hcs 0 best)
      as [E [best1 [Hrun1 [HE [Hle1 [Hall1 Hatt1]]]]]].
    destruct (IH best1) as [Es [best2 [Hrun2 [HEs [Hle2 [Hall2 Hatt2]]]]]].
    exists (E :: Es), best2. cbn [ms_results]. unfold data_counts.
    rewrite Hcounts. cbn [rbind]. rewrite Hrun1. cbn [rbind snd fst].
    rewrite Hrun2. cbn [rbind snd fst].
    split; [reflexivity |].
    split.
    { constructor; [| exact HEs]. exists cs. split; [exact Hcounts |].
      rewrite HE. unfold average_cost, measured_cost. ring. }
    split; [apply xle_trans with best1; assumption |].
    cbn [measured_keys flat_map]. rewrite Hcounts.
    fold (measured_keys rs).
    split.
    { intros key Hin. apply in_app_or in Hin. destruct Hin as [Hin|Hin].
      - apply in_map_iff in Hin. destruct Hin as [kc [<- Hin]].
        apply xle_trans with best1; [apply Hall1, Hin | exact Hle2].
      - apply Hall2, Hin. }
    destruct Hatt2 as [Hsame|[key [c [Hin [Hb Hc]]]]].
    + destruct Hatt1 as [Hsame1|[kc [c [Hin [Hb Hc]]]]].
      * left. congruence.
      * right. exists (fst kc), c. split; [| split; [congruence | exact Hc]].
        apply in_or_app. left. apply in_map. exact Hin.
    + right. exists key, c. split; [| split; assumption].
      apply in_or_app. right. exact Hin.
Qed.

End Sampled.

Lemma variance_is_None (self : QAOATailAssignment) (job : Job)
  (out : list Q * option (list Q) * xfloat) :
  measurementStatistics self job = Ok out -> snd (fst out) = None.
Proof.
  unfold measurementStatistics, measurementStatistics_statevector,
    measurementStatistics_counts, rbind.
  intros H.
  repeat match type of H with
         | context [match ?x with _ => _ end] =>
             destruct x eqn:?; try discriminate
         end;
    inversion H; reflexivity.
Qed.

(** C8: in sampled mode [measurementStatistics] returns one expectation
    value per result block, the shot-weighted average cost of the bit
    strings measured in that block; its variance output is always [None];
    and its best cost is the maximum of [cost] over the bit strings
    measured in all blocks ([-inf] when there is none). *)
Theorem measurementStatistics_sampled (self : QAOATailAssignment) (job : Job) :
  wf self ->
  statevector_backend self = false ->
  rows (FR self) <> [] ->
  (0 < R self)%nat ->
  Forall (good_result self) (results job) ->
  exists exps best,
    measurementStatistics self job = Ok (exps, None, best)
    /\ length exps = length (results job)
    /\ Forall2 (fun r E => exists cs, counts r = Some cs
                                      /\ E == average_cost self r cs)
               (results job) exps
    /\ (forall key, In key (measured_keys (results job)) ->
                    xle (fin (measured_cost self key)) best)
    /\ (measured_keys (results job) = [] -> best = neg_inf)
    /\ (forall q, best = fin q ->
                  exists key, In key (measured_keys (results job))
                              /\ q == measured_cost self key)
    /\ (forall self' job' out,
          measurementStatistics self' job' = Ok out -> snd (fst out) = None).
Proof.
  intros Hwf Hmode Hrows HR Hgood.
  destruct (ms_results_spec self Hwf HR (results job) Hgood neg_inf)
    as [Es [best [Hrun [HEs [_ [Hall Hatt]]]]]].
  exists Es, best.
  split.
  { rewrite (measurementStatistics_rows self job Hrows), Hmode.
    unfold measurementStatistics_counts. rewrite Hrun. reflexivity. }
  split; [symmetry; apply (Forall2_length HEs) |].
  split; [exact HEs |].
  split; [exact Hall |].
  split.
  { intros Hnone. destruct Hatt as [Hb|[key [c [Hin _]]]]; [exact Hb |].
    rewrite Hnone in Hin. destruct Hin. }
  split.
  { intros q Hq. destruct Hatt as [Hb|[key [c [Hin [Hb Hc]]]]]; [congruence |].
    exists key. split; [exact Hin |].
    assert (q = c) by congruence. subst q. exact Hc. }
  apply variance_is_None.
Qed.

Lemma measurementStatistics_sampled_witness :
  exists exps best,
    measurementStatistics sampled_example job_example = Ok (exps, None, best)
    /\ length exps = length (results job_example)
    /\ Forall2 (fun r E => exists cs, counts r = Some cs
                                      /\ E == average_cost sampled_example r cs)
               (results job_example) exps
    /\ (forall key, In key (measured_keys (results job_example)) ->
                    xle (fin (measured_cost sampled_example key)) best)
    /\ (measured_keys (results job_example) = [] -> best = neg_inf)
    /\ (forall q, best = fin q ->
                  exists key, In key (measured_keys (results job_example))
                              /\ q == measured_cost sampled_example key)
    /\ (forall self' job' out,
          measurementStatistics self' job' = Ok out -> snd (fst out) = None).
Proof.
  apply (measurementStatistics_sampled sampled_example job_example).
  - split; [repeat constructor | reflexivity].
  - reflexivity.
  - discriminate.
  - unfold R. simpl. lia.
  - repeat constructor. exists [(1%N, 7%nat); (6%N, 3%nat)].
    split; [reflexivity |].
    repeat constructor; simpl; lia.
Defined.

Example measurementStatistics_example :
  exists E best,
    measurementStatistics sampled_example job_example = Ok ([E], None, fin best)
    /\ E == - (36 # 10) /\ best == - (3).
Proof. do 2 eexists. split; [vm_compute; reflexivity |]. split; vm_compute; reflexivity. Qed.

(** * Further properties of the code *)

(** ** When the cost model raises *)

Lemma forallb_rev_eq {A} (p : A -> bool) (l : list A) :
  forallb p (rev l) = forallb p l.
Proof.
  induction l as [|a l IH]; cbn [rev forallb].
  - reflexivity.
  - rewrite forallb_app, IH. cbn [forallb].
    destruct (p a), (forallb p l); reflexivity.
Qed.

Lemma mapM_digits (l : list ascii) :
  mapM (fun c => z <- int_of_char c ;; Ok (inject_Z z)) l
  = if forallb is_digit l then Ok (map digit_value l) else Raise ValueError.
Proof.
  induction l as [|c l IH]; cbn [mapM forallb map].
  - reflexivity.
  - unfold int_of_char at 1. fold (is_digit c).
    destruct (is_digit c); cbn [rbind andb]; [| reflexivity].
    rewrite IH. destruct (forallb is_digit l); reflexivity.
Qed.

Lemma reversed_bits_digits (b : string) :
  reversed_bits b
  = if all_digits b then Ok (digit_vector b) else Raise ValueError.
Proof.
  unfold reversed_bits, all_digits, digit_vector.
  rewrite mapM_digits, forallb_rev_eq. reflexivity.
Qed.

Lemma digit_vector_length (b : string) :
  length (digit_vector b) = String.length b.
Proof.
  unfold digit_vector. rewrite length_map, length_rev. apply list_ascii_length.
Qed.

(** [cost] returns a number for the strings of the digits 0 to 9 whose
    length is both the length of [CR] and the number of columns of [FR];
    on every other string of ASCII characters it raises [ValueError]. *)
Theorem cost_defined (self : QAOATailAssignment) (b : string) :
  (all_digits b = true /\ length (CR self) = String.length b
   /\ R self = String.length b ->
   exists v, cost self b = Ok v)
  /\ (is_ascii b = true ->
      ~ (all_digits b = true /\ length (CR self) = String.length b
         /\ R self = String.length b) ->
      cost self b = Raise ValueError).
Proof.
  enough (Hgoal :
            (all_digits b = true /\ length (CR self) = String.length b
             /\ R self = String.length b ->
             exists v, cost self b = Ok v)
            /\ (~ (all_digits b = true /\ length (CR self) = String.length b
                   /\ R self = String.length b) ->
                cost self b = Raise ValueError)).
  { destruct Hgoal as [H1 H2]. split; [exact H1 | intros _; exact H2]. }
  unfold cost. rewrite reversed_bits_digits.
  destruct (all_digits b); cbn [rbind].
  - unfold matmul_vv, matmul_mv. rewrite digit_vector_length. fold (R self).
    destruct (Nat.eqb_spec (length (CR self)) (String.length b)) as [HC|HC];
      cbn [rbind].
    + destruct (Nat.eqb_spec (R self) (String.length b)) as [HR|HR];
        cbn [rbind].
      * split; [intros _; eexists; reflexivity | intros H; exfalso; auto].
      * split; [intros [_ [_ H]]; contradiction | reflexivity].
    + split; [intros [_ [H _]]; contradiction | reflexivity].
  - split; [intros [H _]; discriminate | reflexivity].
Qed.

Lemma cost_defined_witness :
  (exists v, cost sampled_example "120" = Ok v)
  /\ cost sampled_example "01" = Raise ValueError
  /\ cost sampled_example "0a1" = Raise ValueError.
Proof.
  split; [| split].
  - apply (cost_defined sampled_example "120"). repeat split.
  - apply (cost_defined sampled_example "01"); [reflexivity |].
    intros [_ [H _]]. discriminate H.
  - apply (cost_defined sampled_example "0a1"); [reflexivity |].
    intros [H _]. discriminate H.
Defined.

(** [is_solution] is more permissive than [cost]: by numpy's broadcasting
    it returns a boolean for the strings of the digits 0 to 9 whose length
    is the number of columns of [FR] or 1, and for every such string when
    [FR] has one column; on every other string of ASCII characters it
    raises [ValueError]. *)
Theorem is_solution_defined (self : QAOATailAssignment) (b : string) :
  (all_digits b = true
   /\ (R self = String.length b \/ String.length b = 1%nat \/ R self = 1%nat) ->
   exists t, is_solution self b = Ok t)
  /\ (is_ascii b = true ->
      ~ (all_digits b = true
         /\ (R self = String.length b \/ String.length b = 1%nat
             \/ R self = 1%nat)) ->
      is_solution self b = Raise ValueError).
Proof.
  enough (Hgoal :
            (all_digits b = true
             /\ (R self = String.length b \/ String.length b = 1%nat
                 \/ R self = 1%nat) ->
             exists t, is_solution self b = Ok t)
            /\ (~ (all_digits b = true
                   /\ (R self = String.length b \/ String.length b = 1%nat
                       \/ R self = 1%nat)) ->
                is_solution self b = Raise ValueError)).
  { destruct Hgoal as [H1 H2]. split; [exact H1 | intros _; exact H2]. }
  unfold is_solution. rewrite reversed_bits_digits.
  destruct (all_digits b); cbn [rbind].
  - unfold broadcast_mul. rewrite digit_vector_length. fold (R self).
    destruct (Nat.eqb_spec (R self) (String.length b)) as [H1|H1]; cbn [rbind];
      [split; [intros _; eexists; reflexivity | intros H; exfalso; auto] |].
    destruct (Nat.eqb_spec (String.length b) 1) as [H2|H2]; cbn [rbind];
      [split; [intros _; eexists; reflexivity | intros H; exfalso; auto] |].
    destruct (Nat.eqb_spec (R self) 1) as [H3|H3]; cbn [rbind];
      [split; [intros _; eexists; reflexivity | intros H; exfalso; auto] |].
    split; [intros [_ [H|[H|H]]]; contradiction | reflexivity].
  - split; [intros [H _]; discriminate | reflexivity].
Qed.

Lemma is_solution_defined_witness :
  (exists t, is_solution sampled_example "1" = Ok t)
  /\ is_solution sampled_example "01" = Raise ValueError.
Proof.
  split.
  - apply (is_solution_defined sampled_example "1").
    split; [reflexivity | right; left; reflexivity].
  - apply (is_solution_defined sampled_example "01"); [reflexivity |].
    intros [_ [H|[H|H]]]; discriminate H.
Defined.

(** On a one-digit string and a matrix with another number of columns,
    [is_solution] weighs every column with that digit: it is true exactly
    when the digit times the sum of every row is 1. *)
Theorem is_solution_one_digit (self : QAOATailAssignment) (c : ascii) :
  is_digit c = true -> R self <> 1%nat ->
  exists t,
    is_solution self (String c "") = Ok t
    /\ (t = true <->
        forall row, In row (rows (FR self)) ->
                    digit_value c * np_sum row == 1).
Proof.
  intros Hc HR. unfold is_solution. rewrite reversed_bits_digits.
  unfold all_digits. cbn [list_ascii_of_string forallb]. rewrite Hc.
  cbn [andb rbind]. unfold broadcast_mul, digit_vector.
  cbn [list_ascii_of_string rev app map length nth].
  fold (R self).
  destruct (Nat.eqb_spec (R self) 1) as [H|_]; [contradiction |].
  cbn [Nat.eqb rbind]. eexists. split; [reflexivity |].
  unfold np_all, np_sum_axis1. rewrite !map_map, forallb_forall.
  assert (Hsum : forall row : list Q,
             np_sum (map (fun v => v * digit_value c) row)
             == digit_value c * np_sum row).
  { intros row. induction row as [|a row IH]; cbn [map np_sum];
      [ring | rewrite IH; ring]. }
  split.
  - intros H row Hrow.
    specialize (H _ (in_map _ _ _ Hrow)). cbn beta in H.
    apply Qeq_bool_iff in H. rewrite <- Hsum. lra.
  - intros H x Hx. apply in_map_iff in Hx. destruct Hx as [row [<- Hrow]].
    apply Qeq_bool_iff. rewrite Hsum, (H row Hrow). ring.
Qed.

Lemma is_solution_one_digit_witness :
  exists t,
    is_solution sampled_example (String "1" "") = Ok t
    /\ (t = true <->
        forall row, In row (rows (FR sampled_example)) ->
                    digit_value "1" * np_sum row == 1).
Proof.
  apply (is_solution_one_digit sampled_example "1"%char).
  - reflexivity.
  - discriminate.
Defined.

(** ** Cost and feasibility *)

Lemma big_sum_nonneg (f : nat -> Q) (n : nat) :
  (forall i, (i < n)%nat -> 0 <= f i) -> 0 <= big_sum f n.
Proof.
  induction n as [|n IH]; intros H; cbn [big_sum].
  - lra.
  - assert (0 <= big_sum f n) by (apply IH; intros; apply H; lia).
    assert (0 <= f n) by (apply H; lia). lra.
Qed.

Lemma big_sum_zero_terms (f : nat -> Q) (n : nat) :
  (forall i, (i < n)%nat -> 0 <= f i) -> big_sum f n == 0 ->
  forall i, (i < n)%nat -> f i == 0.
Proof.
  induction n as [|n IH]; intros Hpos Hsum i Hi; cbn [big_sum] in Hsum.
  - lia.
  - assert (H1 : 0 <= big_sum f n) by (apply big_sum_nonneg; intros; apply Hpos; lia).
    assert (H2 : 0 <= f n) by (apply Hpos; lia).
    destruct (Nat.eq_dec i n) as [->|Hne].
    + lra.
    + apply IH; [intros; apply Hpos; lia | lra | lia].
Qed.

Lemma square_nonneg (y : Q) : 0 <= y ^ 2.
Proof.
  change (y ^ 2) with (y * y). nra.
Qed.

Lemma square_zero (y : Q) : y ^ 2 == 0 -> y == 0.
Proof.
  change (y ^ 2) with (y * y). intros H.
  destruct (Qeq_dec y 0) as [Hy|Hy]; [exact Hy |].
  exfalso. apply Hy. nra.
Qed.

Lemma penalty_nonneg (self : QAOATailAssignment) (x : list Q) :
  0 <= penalty self x.
Proof.
  unfold penalty. apply big_sum_nonneg. intros f _. apply square_nonneg.
Qed.

(** With a non-negative penalty weight, the cost of a bit string is never
    above [- (CR . x)]: violating the constraint can only lower it. *)
Theorem cost_upper_bound (self : QAOATailAssignment) (b : string) :
  wf self -> is_bitstring b = true -> String.length b = R self ->
  0 <= mu self ->
  exists v, cost self b = Ok v /\ v <= - linear_term self (assignment b).
Proof.
  intros Hwf Hb Hlen Hmu.
  destruct (cost_formula_correct self b Hwf Hb Hlen) as [v [Hv Hf]].
  exists v. split; [exact Hv |].
  rewrite Hf. unfold cost_formula.
  pose proof (penalty_nonneg self (assignment b)). nra.
Qed.

Lemma cost_upper_bound_witness :
  exists v, cost sampled_example "110" = Ok v
            /\ v <= - linear_term sampled_example (assignment "110").
Proof.
  apply (cost_upper_bound sampled_example "110").
  - split; [repeat constructor | reflexivity].
  - reflexivity.
  - reflexivity.
  - unfold Qle. simpl. lia.
Defined.

(** With a positive penalty weight, the bit strings whose cost is exactly
    [- (CR . x)] are the solutions: [is_solution] and [cost] agree on
    feasibility. *)
Theorem solution_iff_cost (self : QAOATailAssignment) (b : string) :
  wf self -> is_bitstring b = true -> String.length b = R self ->
  0 < mu self ->
  (is_solution self b = Ok true
   <-> exists v, cost self b = Ok v
                 /\ v == - linear_term self (assignment b)).
Proof.
  intros Hwf Hb Hlen Hmu.
  destruct (is_solution_covers self b Hwf Hb Hlen) as [t [Ht Hiff]].
  destruct (cost_formula_correct self b Hwf Hb Hlen) as [v [Hv Hf]].
  split.
  - intros Hsol. exists v. split; [exact Hv |].
    assert (Hcov : forall f, (f < F self)%nat ->
                             row_cover self (assignment b) f == 1).
    { apply Hiff. congruence. }
    rewrite Hf. unfold cost_formula.
    rewrite (penalty_feasible self _ Hcov). ring.
  - intros [v' [Hv' Hlin]].
    assert (v' = v) by congruence. subst v'.
    assert (Hpen : penalty self (assignment b) == 0).
    { pose proof (penalty_nonneg self (assignment b)) as Hnn.
      rewrite Hf in Hlin. unfold cost_formula in Hlin.
      destruct (Qeq_dec (penalty self (assignment b)) 0) as [H0|H0];
        [exact H0 |].
      exfalso. apply H0. nra. }
    rewrite Ht. f_equal. apply Hiff. intros f Hf'.
    assert (Hsq : (1 - row_cover self (assignment b) f) ^ 2 == 0).
    { apply (big_sum_zero_terms
               (fun f => (1 - row_cover self (assignment b) f) ^ 2) (F self));
        [intros; apply square_nonneg | exact Hpen | exact Hf']. }
    apply square_zero in Hsq. lra.
Qed.

Lemma solution_iff_cost_witness :
  is_solution sampled_example "001" = Ok true
  <-> exists v, cost sampled_example "001" = Ok v
                /\ v == - linear_term sampled_example (assignment "001").
Proof.
  apply (solution_iff_cost sampled_example "001").
  - split; [repeat constructor | reflexivity].
  - reflexivity.
  - reflexivity.
  - reflexivity.
Defined.

Lemma zeros_chars (n : nat) :
  list_ascii_of_string (zeros n) = repeat "0"%char n.
Proof. induction n as [|n IH]; cbn; [reflexivity | rewrite IH; reflexivity]. Qed.

Lemma assignment_zeros (n r : nat) :
  (r < n)%nat -> nth r (assignment (zeros n)) 0 = 0.
Proof.
  intros Hr. rewrite assignment_nth by (rewrite zeros_length; exact Hr).
  rewrite zeros_chars, nth_repeat. reflexivity.
Qed.

Lemma big_sum_ones (n : nat) : big_sum (fun _ => 1) n == Q_of_nat n.
Proof.
  unfold Q_of_nat. induction n as [|n IH]; cbn [big_sum].
  - reflexivity.
  - rewrite IH, Nat2Z.inj_succ. unfold Z.succ. rewrite inject_Z_plus. ring.
Qed.

(** The string of [R] zeros (no resource selected) costs [- mu * F], one
    penalty per uncovered task, and it is a solution only of a problem
    without tasks. *)
Theorem cost_of_nothing_selected (self : QAOATailAssignment) :
  wf self ->
  exists v t,
    cost self (zeros (R self)) = Ok v
    /\ v == - (mu self * Q_of_nat (F self))
    /\ is_solution self (zeros (R self)) = Ok t
    /\ (t = true <-> F self = 0%nat).
Proof.
  intros Hwf.
  pose proof (zeros_bitstring (R self)) as Hb.
  pose proof (zeros_length (R self)) as Hlen.
  destruct (cost_formula_correct self _ Hwf Hb Hlen) as [v [Hv Hf]].
  destruct (is_solution_covers self _ Hwf Hb Hlen) as [t [Ht Hiff]].
  assert (Hcov : forall f, row_cover self (assignment (zeros (R self))) f == 0).
  { intros f. unfold row_cover. rewrite (big_sum_ext _ (fun _ => 0)).
    - apply big_sum_zero.
    - intros r Hr. rewrite assignment_zeros by exact Hr. ring. }
  exists v, t. split; [exact Hv |]. split.
  - rewrite Hf. unfold cost_formula, linear_term, penalty.
    rewrite (big_sum_ext _ (fun _ => 0) (R self)).
    + rewrite (big_sum_ext _ (fun _ => 1) (F self)).
      * rewrite big_sum_zero, big_sum_ones. ring.
      * intros f _. rewrite Hcov. ring.
    + intros r Hr. rewrite assignment_zeros by exact Hr. ring.
  - split; [exact Ht |]. rewrite Hiff. split.
    + intros H. destruct (F self) as [|n] eqn:HF; [reflexivity |].
      specialize (H 0%nat (Nat.lt_0_succ n)). rewrite Hcov in H.
      discriminate H.
    + intros HF f Hf'. lia.
Qed.

Lemma cost_of_nothing_selected_witness :
  exists v t,
    cost sampled_example (zeros (R sampled_example)) = Ok v
    /\ v == - (mu sampled_example * Q_of_nat (F sampled_example))
    /\ is_solution sampled_example (zeros (R sampled_example)) = Ok t
    /\ (t = true <-> F sampled_example = 0%nat).
Proof.
  apply (cost_of_nothing_selected sampled_example).
  split; [repeat constructor | reflexivity].
Defined.

(** ** Size and shape of the emitted circuits *)

Lemma triples_length (J : nat -> Q) (r : nat) (l : list nat) :
  length (triples J r l) = (3 * length l)%nat.
Proof.
  unfold triples. induction l as [|r_ l IH]; cbn [flat_map length app].
  - reflexivity.
  - rewrite IH. lia.
Qed.

Lemma blocks_length (h : nat -> Q) (J : nat -> nat -> Q) (len : nat) :
  forall a,
    (2 * length (flat_map (fun r => rz (h r) r
                                    :: triples (J r) r (range (r + 1) (a + len)))
                          (seq a len))
     + len = 3 * len * len)%nat.
Proof.
  induction len as [|len IH]; intros a.
  - reflexivity.
  - cbn [seq flat_map]. rewrite length_app. cbn [length].
    rewrite triples_length. unfold range at 1. rewrite length_seq.
    replace (a + S len)%nat with (S a + len)%nat by lia.
    specialize (IH (S a)). nia.
Qed.

Lemma ising_gates_length (h : nat -> Q) (J : nat -> nat -> Q) (n : nat) :
  (2 * length (ising_gates h J n) + n = 3 * n * n)%nat.
Proof.
  unfold ising_gates, range. rewrite Nat.sub_0_r.
  apply (blocks_length h J n 0).
Qed.

Lemma flat_map_singleton_length {A B} (g : A -> B) (l : list A) :
  length (flat_map (fun a => [g a]) l) = length l.
Proof.
  induction l as [|a l IH]; cbn [flat_map app length];
    [reflexivity | rewrite IH; reflexivity].
Qed.

(** [apply_hamiltonian] and [apply_exco] emit [R + 3 R (R-1) / 2] gates
    each and [apply_cost] emits [R]: calling [apply_hamiltonian] once
    saves [R] gates over calling [apply_cost] and [apply_exco]. *)
Theorem gate_counts (self : QAOATailAssignment) (gamma : Q)
  (qc : QuantumCircuit) :
  wf self ->
  exists gh gc ge,
    apply_hamiltonian self gamma qc = (Ok tt, qc ++ gh)
    /\ apply_cost self gamma qc = (Ok tt, qc ++ gc)
    /\ apply_exco self gamma qc = (Ok tt, qc ++ ge)
    /\ (2 * length gh + R self = 3 * R self * R self)%nat
    /\ length ge = length gh
    /\ length gc = R self
    /\ length (gc ++ ge) = (length gh + R self)%nat.
Proof.
  intros Hwf. do 3 eexists.
  split; [apply apply_hamiltonian_run; exact Hwf |].
  split; [apply apply_cost_run; exact Hwf |].
  split; [apply apply_exco_run |].
  assert (Hc : length (flat_map
                         (fun r => [rz (gamma * ((1 # 2) * nth r (CR self) 0)) r])
                         (range 0 (R self))) = R self).
  { rewrite flat_map_singleton_length. unfold range.
    rewrite length_seq. lia. }
  rewrite length_app, Hc.
  match goal with
  | |- context [length (ising_gates ?h ?J ?n)] =>
      pose proof (ising_gates_length h J n) as Hh
  end.
  match goal with
  | |- _ /\ length (ising_gates ?h ?J ?n) = _ /\ _ =>
      pose proof (ising_gates_length h J n) as He
  end.
  repeat split; lia.
Qed.

Lemma gate_counts_witness :
  exists gh gc ge,
    apply_hamiltonian sampled_example (1 # 3) [] = (Ok tt, [] ++ gh)
    /\ apply_cost sampled_example (1 # 3) [] = (Ok tt, [] ++ gc)
    /\ apply_exco sampled_example (1 # 3) [] = (Ok tt, [] ++ ge)
    /\ (2 * length gh + R sampled_example
        = 3 * R sampled_example * R sampled_example)%nat
    /\ length ge = length gh
    /\ length gc = R sampled_example
    /\ length (gc ++ ge) = (length gh + R sampled_example)%nat.
Proof.
  apply (gate_counts sampled_example (1 # 3) []).
  split; [repeat constructor | reflexivity].
Defined.

Lemma ising_gates_in_register (h : nat -> Q) (J : nat -> nat -> Q) (n : nat) :
  Forall (gate_in_register n) (ising_gates h J n).
Proof.
  unfold ising_gates. rewrite Forall_forall. intros g Hg.
  apply in_flat_map in Hg. destruct Hg as [r [Hr Hg]].
  apply in_range in Hr. destruct Hg as [<-|Hg].
  - cbn. lia.
  - unfold triples in Hg. apply in_flat_map in Hg.
    destruct Hg as [r_ [Hr_ Hg]]. apply in_range in Hr_.
    destruct Hg as [<-|[<-|[<-|[]]]]; cbn; lia.
Qed.

(** Every gate that [apply_hamiltonian], [apply_exco] and [apply_cost] emit
    is a rotation on a qubit of the register or a controlled gate from a
    qubit to a later qubit of the register: no controlled gate has equal
    control and target, and nothing is measured. *)
Theorem emitted_gates_in_register (self : QAOATailAssignment) (gamma : Q)
  (qc : QuantumCircuit) :
  wf self ->
  exists gh gc ge,
    apply_hamiltonian self gamma qc = (Ok tt, qc ++ gh)
    /\ apply_cost self gamma qc = (Ok tt, qc ++ gc)
    /\ apply_exco self gamma qc = (Ok tt, qc ++ ge)
    /\ Forall (gate_in_register (R self)) gh
    /\ Forall (gate_in_register (R self)) gc
    /\ Forall (gate_in_register (R self)) ge.
Proof.
  intros Hwf. do 3 eexists.
  split; [apply apply_hamiltonian_run; exact Hwf |].
  split; [apply apply_cost_run; exact Hwf |].
  split; [apply apply_exco_run |].
  split; [apply ising_gates_in_register |].
  split; [| apply ising_gates_in_register].
  rewrite Forall_forall. intros g Hg.
  apply in_flat_map in Hg. destruct Hg as [r [Hr [<-|[]]]].
  apply in_range in Hr. cbn. lia.
Qed.

Lemma emitted_gates_in_register_witness :
  exists gh gc ge,
    apply_hamiltonian sampled_example (1 # 3) [] = (Ok tt, [] ++ gh)
    /\ apply_cost sampled_example (1 # 3) [] = (Ok tt, [] ++ gc)
    /\ apply_exco sampled_example (1 # 3) [] = (Ok tt, [] ++ ge)
    /\ Forall (gate_in_register (R sampled_example)) gh
    /\ Forall (gate_in_register (R sampled_example)) gc
    /\ Forall (gate_in_register (R sampled_example)) ge.
Proof.
  apply (emitted_gates_in_register sampled_example (1 # 3) []).
  split; [repeat constructor | reflexivity].
Defined.

Lemma dot_comm (u v : list Q) : dot u v == dot v u.
Proof.
  unfold dot. revert v.
  induction u as [|a u IH]; intros [|b v]; cbn [mul_elementwise np_sum];
    try reflexivity.
  rewrite IH. ring.
Qed.

(** The coupling angle that the inner loop computes for the pair
    [(r, r_)] is the one it would compute for [(r_, r)]: visiting the
    upper triangle only loses no coupling. *)
Theorem coupling_symmetric (self : QAOATailAssignment) (gamma : Q)
  (r r_ : nat) :
  gamma * dot (scale (1 # 2) (column (FR self) r)) (column (FR self) r_)
  == gamma * dot (scale (1 # 2) (column (FR self) r_)) (column (FR self) r)
  /\ coupling self r r_ == coupling self r_ r.
Proof.
  unfold coupling. rewrite !dot_scale_l.
  rewrite (dot_comm (column (FR self) r) (column (FR self) r_)).
  split; reflexivity.
Qed.

(** ** A cost vector shorter than the register *)

Lemma for_app {A} (body : A -> Circ unit) (l1 l2 : list A)
  (qc : QuantumCircuit) :
  for_ (l1 ++ l2) body qc
  = cbind (for_ l1 body) (fun _ => for_ l2 body) qc.
Proof.
  revert qc. induction l1 as [|a l1 IH]; intros qc; cbn [app for_].
  - reflexivity.
  - unfold cbind in *. destruct (body a qc) as [[u|e] qc'].
    + apply IH.
    + reflexivity.
Qed.

Lemma range_split (k n : nat) :
  (k < n)%nat -> range 0 n = range 0 k ++ k :: range (k + 1) n.
Proof.
  intros Hk. unfold range.
  replace (n - 0)%nat with (k + S (n - (k + 1)))%nat by lia.
  rewrite seq_app. rewrite Nat.sub_0_r. cbn [seq Nat.add].
  replace (k + 1)%nat with (S k) by lia. reflexivity.
Qed.

Lemma gate_eqv_self (g : Gate) : gate_eqv g g.
Proof. destruct g; cbn; auto; try split; reflexivity. Qed.

Lemma getitem_out_of_range {A} (v : list A) :
  getitem v (length v) = Raise IndexError.
Proof.
  unfold getitem.
  destruct (nth_error v (length v)) eqn:H; [| reflexivity].
  assert (nth_error v (length v) <> None) by congruence.
  apply nth_error_Some in H0. lia.
Qed.

(** When [CR] has fewer entries than [FR] has columns, [apply_cost] raises
    [IndexError] when it reads [CR[len(CR)]]: it has then appended the
    rotations on the qubits [0..len(CR)-1] to the circuit, which stays
    extended by them.  (The class passes [CR.size] to the base class as
    the number of qubits, so the qubits below [len(CR)] are in the
    register.) *)
Theorem short_cost_vector (self : QAOATailAssignment) (gamma : Q)
  (qc : QuantumCircuit) :
  (length (CR self) < R self)%nat ->
  exists gc,
    apply_cost self gamma qc = (Raise IndexError, qc ++ gc)
    /\ circuit_eqv gc
         (map (fun r => rz (gamma * ((1 # 2) * nth r (CR self) 0)) r)
              (range 0 (length (CR self)))).
Proof.
  intros Hshort. eexists. split.
  - unfold apply_cost. rewrite (range_split _ _ Hshort), for_app.
    unfold cbind at 1.
    rewrite (for_emits
               (fun r => [rz (gamma * ((1 # 2) * nth r (CR self) 0)) r])).
    + cbn [for_]. unfold cbind at 1. unfold cbind at 1. unfold lift.
      rewrite getitem_out_of_range. reflexivity.
    + intros r qc' Hr. apply in_range in Hr.
      unfold cbind, lift. rewrite getitem_nth by lia. reflexivity.
  - induction (range 0 (length (CR self))) as [|r l IH]; cbn [flat_map map app].
    + constructor.
    + constructor; [apply gate_eqv_self | exact IH].
Qed.

Lemma short_cost_vector_witness :
  exists gc,
    apply_cost short_CR_example (1 # 3) [] = (Raise IndexError, [] ++ gc)
    /\ circuit_eqv gc
         (map (fun r => rz ((1 # 3) * ((1 # 2) * nth r (CR short_CR_example) 0)) r)
              (range 0 (length (CR short_CR_example)))).
Proof.
  apply (short_cost_vector short_CR_example (1 # 3) []).
  unfold R. simpl. lia.
Defined.

(** ** The layers of the circuit *)

Lemma slice_step_nth_error {A} (step : nat) (l : list A) :
  (0 < step)%nat ->
  forall k d, nth_error (slice_step step k l) d = nth_error l (k + d * step).
Proof.
  intros Hstep. induction l as [|a l IH]; intros k d; cbn [slice_step].
  - destruct d, (k + _)%nat; reflexivity.
  - destruct k as [|k].
    + destruct d as [|d]; cbn [nth_error Nat.add Nat.mul].
      * reflexivity.
      * rewrite IH.
        replace (step + d * step)%nat with (S (step - 1 + d * step)) by lia.
        reflexivity.
    + rewrite IH. reflexivity.
Qed.

Lemma getitem_slice (step k d : nat) (params : list Q) :
  (0 < step)%nat -> (k + d * step < length params)%nat ->
  getitem (slice_step step k params) d = Ok (nth (k + d * step) params 0).
Proof.
  intros Hstep Hlt. unfold getitem.
  rewrite slice_step_nth_error by exact Hstep.
  rewrite (nth_error_nth' params 0 Hlt). reflexivity.
Qed.

Lemma getitem_slice_out (step k d : nat) (params : list Q) :
  (0 < step)%nat -> (length params <= k + d * step)%nat ->
  getitem (slice_step step k params) d = Raise IndexError.
Proof.
  intros Hstep Hge. unfold getitem.
  rewrite slice_step_nth_error by exact Hstep.
  apply nth_error_None in Hge. rewrite Hge. reflexivity.
Qed.

Lemma gate_eqv_refl (g : Gate) : gate_eqv g g.
Proof. destruct g; cbn; auto; try split; reflexivity. Qed.

Lemma circuit_eqv_refl (c : QuantumCircuit) : circuit_eqv c c.
Proof. induction c; constructor; [apply gate_eqv_refl | assumption]. Qed.

Lemma barrier_run (self : QAOATailAssignment) (qc : QuantumCircuit) :
  (if usebarrier self then emit barrier else cret tt) qc
  = (Ok tt, qc ++ barrier_gates self).
Proof.
  unfold barrier_gates, emit, cret.
  destruct (usebarrier self); [reflexivity | rewrite app_nil_r; reflexivity].
Qed.

Lemma layer_run (self : QAOATailAssignment) (gammas betas : list Q)
  (d : nat) (gamma beta : Q) (qc : QuantumCircuit) :
  wf self -> getitem gammas d = Ok gamma -> getitem betas d = Ok beta ->
  exists gs,
    layer self gammas betas d qc = (Ok tt, qc ++ gs)
    /\ circuit_eqv gs (layer_gates self gamma beta).
Proof.
  intros Hwf Hg Hb. unfold layer.
  unfold cbind at 1. unfold lift at 1. rewrite Hg.
  unfold cbind at 1. unfold lift at 1. rewrite Hb.
  unfold cbind at 1. rewrite apply_hamiltonian_run by exact Hwf.
  unfold cbind at 1. rewrite barrier_run.
  unfold cbind at 1. unfold mix_states, emit at 1.
  rewrite barrier_run.
  eexists. split.
  - rewrite <- !app_assoc. reflexivity.
  - unfold layer_gates. apply Forall2_app.
    + apply ising_gates_eqv.
      * intros r. apply hamiltonian_angle.
      * intros r r_. apply coupling_angle.
    + apply circuit_eqv_refl.
Qed.

Lemma for_layers {A} (body : A -> Circ unit) (spec : A -> QuantumCircuit)
  (l : list A) :
  (forall a, In a l -> forall qc,
        exists gs, body a qc = (Ok tt, qc ++ gs) /\ circuit_eqv gs (spec a)) ->
  forall qc,
  exists gs, for_ l body qc = (Ok tt, qc ++ gs)
             /\ circuit_eqv gs (flat_map spec l).
Proof.
  induction l as [|a l IH]; intros H qc; cbn [for_ flat_map].
  - exists []. rewrite app_nil_r. split; [reflexivity | constructor].
  - destruct (H a (or_introl eq_refl) qc) as [gs1 [Hrun1 Heq1]].
    destruct (IH (fun a' Ha' => H a' (or_intror Ha')) (qc ++ gs1))
      as [gs2 [Hrun2 Heq2]].
    exists (gs1 ++ gs2). unfold cbind. rewrite Hrun1, Hrun2, app_assoc.
    split; [reflexivity | apply Forall2_app; assumption].
Qed.

(** With two angles per layer, [createCircuit] returns the prepared
    circuit followed, for every layer [d], by the Hamiltonian gates with
    angle [params[2d]], a barrier if configured, the mixer with angle
    [params[2d+1]] and again a barrier if configured, and at the end the
    measurement unless the backend is a statevector backend. *)
Theorem createCircuit_layers (initial_state : nat -> Circ unit)
  (self : QAOATailAssignment) (params : list Q) (qc qc0 : QuantumCircuit) :
  wf self ->
  initial_state (R self) qc = (Ok tt, qc0) ->
  (2 * depth self <= length params)%nat ->
  exists gs,
    createCircuit initial_state self params qc = (Ok (qc0 ++ gs), qc0 ++ gs)
    /\ circuit_eqv gs
         (flat_map (fun d => layer_gates self (nth (2 * d) params 0)
                                         (nth (2 * d + 1) params 0))
                   (range 0 (depth self))
          ++ final_gates self).
Proof.
  intros Hwf Hinit Hlen.
  destruct (for_layers
              (layer self (slice_step 2 0 params) (slice_step 2 1 params))
              (fun d => layer_gates self (nth (2 * d) params 0)
                                    (nth (2 * d + 1) params 0))
              (range 0 (depth self))) with (qc := qc0) as [gs [Hrun Heq]].
  { intros d Hd qc1. apply in_range in Hd. apply layer_run.
    - exact Hwf.
    - rewrite getitem_slice by lia. f_equal. f_equal. lia.
    - rewrite getitem_slice by lia. f_equal. f_equal. lia. }
  exists (gs ++ final_gates self). split.
  - rewrite createCircuit_final. unfold ansatz, cbind.
    rewrite Hinit, Hrun, app_assoc. reflexivity.
  - apply Forall2_app; [exact Heq | apply circuit_eqv_refl].
Qed.

Lemma createCircuit_layers_witness :
  exists gs,
    createCircuit fresh_circuit exact_example [1 # 3; 1 # 5] [rx_all 1]
    = (Ok ([] ++ gs), [] ++ gs)
    /\ circuit_eqv gs
         (flat_map (fun d => layer_gates exact_example
                                         (nth (2 * d) [1 # 3; 1 # 5] 0)
                                         (nth (2 * d + 1) [1 # 3; 1 # 5] 0))
                   (range 0 (depth exact_example))
          ++ final_gates exact_example).
Proof.
  apply (createCircuit_layers fresh_circuit exact_example [1 # 3; 1 # 5]
           [rx_all 1] []).
  - split; [repeat constructor | reflexivity].
  - reflexivity.
  - simpl. lia.
Defined.

Lemma half_bounds (n : nat) : (2 * (n / 2) <= n < 2 * (n / 2) + 2)%nat.
Proof.
  pose proof (Nat.div_mod_eq n 2) as H.
  pose proof (Nat.mod_upper_bound n 2) as H'. lia.
Qed.

Lemma layer_raises (self : QAOATailAssignment) (gammas betas : list Q)
  (d : nat) (qc : QuantumCircuit) :
  getitem gammas d = Raise IndexError \/ getitem betas d = Raise IndexError ->
  layer self gammas betas d qc = (Raise IndexError, qc).
Proof.
  intros H. unfold layer, cbind, lift.
  destruct (getitem gammas d) as [gamma|e] eqn:Hg.
  - destruct H as [H|H]; [discriminate | rewrite H; reflexivity].
  - destruct H as [H|H]; [congruence |].
    destruct e; try reflexivity;
      unfold getitem in Hg; destruct (nth_error gammas d); discriminate.
Qed.

(** With fewer than two angles per layer, [createCircuit] raises
    [IndexError]: it has then appended the complete layers that the angles
    suffice for, [len(params) // 2] of them, and no measurement. *)
Theorem createCircuit_short_params (initial_state : nat -> Circ unit)
  (self : QAOATailAssignment) (params : list Q) (qc qc0 : QuantumCircuit) :
  wf self ->
  initial_state (R self) qc = (Ok tt, qc0) ->
  (length params < 2 * depth self)%nat ->
  exists gs,
    createCircuit initial_state self params qc = (Raise IndexError, qc0 ++ gs)
    /\ circuit_eqv gs
         (flat_map (fun d => layer_gates self (nth (2 * d) params 0)
                                         (nth (2 * d + 1) params 0))
                   (range 0 (length params / 2))).
Proof.
  intros Hwf Hinit Hlen.
  pose proof (half_bounds (length params)) as Hhalf.
  set (k := (length params / 2)%nat) in *.
  assert (Hk : (k < depth self)%nat) by lia.
  destruct (for_layers
              (layer self (slice_step 2 0 params) (slice_step 2 1 params))
              (fun d => layer_gates self (nth (2 * d) params 0)
                                    (nth (2 * d + 1) params 0))
              (range 0 k)) with (qc := qc0) as [gs [Hrun Heq]].
  { intros d Hd qc1. apply in_range in Hd. apply layer_run.
    - exact Hwf.
    - rewrite getitem_slice by lia. f_equal. f_equal. lia.
    - rewrite getitem_slice by lia. f_equal. f_equal. lia. }
  exists gs. split; [| exact Heq].
  rewrite createCircuit_final. unfold ansatz. unfold cbind at 1.
  rewrite Hinit. cbv zeta. rewrite (range_split k (depth self) Hk), for_app.
  unfold cbind at 1. rewrite Hrun. cbn [for_]. unfold cbind at 1.
  rewrite layer_raises; [reflexivity |].
  destruct (Nat.le_gt_cases (length params) (2 * k)) as [Heven|Hodd].
  - left. apply getitem_slice_out; lia.
  - right. apply getitem_slice_out; lia.
Qed.

Lemma createCircuit_short_params_witness :
  exists gs,
    createCircuit fresh_circuit exact_example [1 # 3] [rx_all 1]
    = (Raise IndexError, [] ++ gs)
    /\ circuit_eqv gs
         (flat_map (fun d => layer_gates exact_example
                                         (nth (2 * d) [1 # 3] 0)
                                         (nth (2 * d + 1) [1 # 3] 0))
                   (range 0 (length [1 # 3] / 2))).
Proof.
  apply (createCircuit_short_params fresh_circuit exact_example [1 # 3]
           [rx_all 1] []).
  - split; [repeat constructor | reflexivity].
  - reflexivity.
  - simpl. lia.
Defined.

Lemma for_ext {A} (body body' : A -> Circ unit) (l : list A) :
  (forall a, In a l -> forall qc, body a qc = body' a qc) ->
  forall qc, for_ l body qc = for_ l body' qc.
Proof.
  induction l as [|a l IH]; intros H qc; cbn [for_].
  - reflexivity.
  - unfold cbind. rewrite (H a (or_introl eq_refl) qc).
    destruct (body' a qc) as [[u|e] qc']; [| reflexivity].
    apply IH. intros a' Ha'. apply H. right. exact Ha'.
Qed.

Lemma getitem_slice_firstn (step k d n : nat) (params : list Q) :
  (0 < step)%nat -> (k + d * step < n)%nat ->
  getitem (slice_step step k (firstn n params)) d
  = getitem (slice_step step k params) d.
Proof.
  intros Hstep Hlt. unfold getitem.
  rewrite !slice_step_nth_error by exact Hstep.
  rewrite nth_error_firstn.
  destruct (Nat.ltb_spec (k + d * step) n); [reflexivity | lia].
Qed.

(** [createCircuit] reads the first [2 * depth] angles only: angles beyond
    them are ignored without any error. *)
Theorem createCircuit_surplus_params (initial_state : nat -> Circ unit)
  (self : QAOATailAssignment) (params : list Q) (qc : QuantumCircuit) :
  createCircuit initial_state self params qc
  = createCircuit initial_state self (firstn (2 * depth self) params) qc.
Proof.
  rewrite !createCircuit_final.
  replace (ansatz initial_state self (firstn (2 * depth self) params) qc)
    with (ansatz initial_state self params qc); [reflexivity |].
  unfold ansatz, cbind.
  destruct (initial_state (R self) qc) as [[u|e] qc0]; [| reflexivity].
  rewrite (for_ext
             (layer self (slice_step 2 0 params) (slice_step 2 1 params))
             (layer self (slice_step 2 0 (firstn (2 * depth self) params))
                         (slice_step 2 1 (firstn (2 * depth self) params)))).
  - reflexivity.
  - intros d Hd qc1. apply in_range in Hd. unfold layer.
    rewrite !getitem_slice_firstn by lia. reflexivity.
Qed.

(** ** The interlaced circuit *)

Lemma getitem_error {A} (v : list A) (i : nat) (e : exn) :
  getitem v i = Raise e -> e = IndexError.
Proof.
  unfold getitem. destruct (nth_error v i); intros H; [discriminate | congruence].
Qed.

Lemma interlaced_layer_run (self : QAOATailAssignment)
  (gammas betas deltas : list Q) (d : nat) (gamma beta delta : Q)
  (qc : QuantumCircuit) :
  wf self ->
  getitem gammas d = Ok gamma -> getitem betas d = Ok beta ->
  getitem deltas d = Ok delta ->
  exists gs,
    TailAssignmentInterlaced.layer self gammas betas deltas d qc
    = (Ok tt, qc ++ gs)
    /\ circuit_eqv gs (interlaced_layer_gates self gamma beta delta).
Proof.
  intros Hwf Hg Hb Hd. unfold TailAssignmentInterlaced.layer.
  unfold cbind at 1. unfold lift at 1. rewrite Hg.
  unfold cbind at 1. unfold lift at 1. rewrite Hb.
  unfold cbind at 1. unfold lift at 1. rewrite Hd.
  unfold cbind at 1. rewrite apply_cost_run by exact Hwf.
  unfold cbind at 1. rewrite barrier_run.
  unfold cbind at 1. unfold mix_states at 1, emit at 1.
  unfold cbind at 1. rewrite barrier_run.
  unfold cbind at 1. rewrite apply_exco_run.
  unfold cbind at 1. unfold mix_states, emit at 1.
  rewrite barrier_run.
  eexists. split.
  - rewrite <- !app_assoc. reflexivity.
  - unfold interlaced_layer_gates.
    apply Forall2_app; [apply cost_gates_eqv |].
    apply Forall2_app; [apply circuit_eqv_refl |].
    apply Forall2_app; [apply circuit_eqv_refl |].
    apply Forall2_app; [apply circuit_eqv_refl |].
    apply Forall2_app; [| apply circuit_eqv_refl].
    apply ising_gates_eqv.
    + intros r. apply exco_angle.
    + intros r r_. apply coupling_angle.
Qed.

Lemma interlaced_layer_raises (self : QAOATailAssignment)
  (gammas betas deltas : list Q) (d : nat) (qc : QuantumCircuit) :
  getitem gammas d = Raise IndexError \/ getitem betas d = Raise IndexError
  \/ getitem deltas d = Raise IndexError ->
  TailAssignmentInterlaced.layer self gammas betas deltas d qc
  = (Raise IndexError, qc).
Proof.
  intros H. unfold TailAssignmentInterlaced.layer, cbind, lift.
  destruct (getitem gammas d) as [gamma|e] eqn:Hg;
    [| rewrite (getitem_error _ _ _ Hg); reflexivity].
  destruct (getitem betas d) as [beta|e] eqn:Hb;
    [| rewrite (getitem_error _ _ _ Hb); reflexivity].
  destruct (getitem deltas d) as [delta|e] eqn:Hd;
    [| rewrite (getitem_error _ _ _ Hd); reflexivity].
  destruct H as [H|[H|H]]; discriminate.
Qed.

Lemma interlaced_createCircuit_final (initial_state : nat -> Circ unit)
  (self : QAOATailAssignment) (params : list Q) (qc : QuantumCircuit) :
  TailAssignmentInterlaced.createCircuit initial_state self params qc
  = match TailAssignmentInterlaced.ansatz initial_state self params qc with
    | (Ok _, body) => (Ok (body ++ final_gates self), body ++ final_gates self)
    | (Raise e, body) => (Raise e, body)
    end.
Proof.
  unfold TailAssignmentInterlaced.createCircuit, cbind, final_gates.
  destruct (TailAssignmentInterlaced.ansatz initial_state self params qc)
    as [[u|e] body].
  - destruct (statevector_backend self); cbn [negb].
    + unfold cret, get_qc. rewrite app_nil_r. reflexivity.
    + unfold emit, get_qc. reflexivity.
  - reflexivity.
Qed.

(** With three angles per layer, the interlaced [createCircuit] returns
    the prepared circuit followed, for every layer [d], by the cost gates
    with angle [params[3d+2]], the mixer with angle [params[3d+1]], the
    constraint gates with angle [params[3d]] and the same mixer again
    (with a barrier after the cost gates and after each mixer if
    configured), and at the end the measurement unless the backend is a
    statevector backend. *)
Theorem interlaced_createCircuit_layers (initial_state : nat -> Circ unit)
  (self : QAOATailAssignment) (params : list Q) (qc qc0 : QuantumCircuit) :
  wf self ->
  initial_state (R self) qc = (Ok tt, qc0) ->
  (3 * depth self <= length params)%nat ->
  exists gs,
    TailAssignmentInterlaced.createCircuit initial_state self params qc
    = (Ok (qc0 ++ gs), qc0 ++ gs)
    /\ circuit_eqv gs
         (flat_map (fun d => interlaced_layer_gates self
                               (nth (3 * d) params 0)
                               (nth (3 * d + 1) params 0)
                               (nth (3 * d + 2) params 0))
                   (range 0 (depth self))
          ++ final_gates self).
Proof.
  intros Hwf Hinit Hlen.
  destruct (for_layers
              (TailAssignmentInterlaced.layer self (slice_step 3 0 params)
                 (slice_step 3 1 params) (slice_step 3 2 params))
              (fun d => interlaced_layer_gates self
                          (nth (3 * d) params 0)
                          (nth (3 * d + 1) params 0)
                          (nth (3 * d + 2) params 0))
              (range 0 (depth self))) with (qc := qc0) as [gs [Hrun Heq]].
  { intros d Hd qc1. apply in_range in Hd. apply interlaced_layer_run.
    - exact Hwf.
    - rewrite getitem_slice by lia. f_equal. f_equal. lia.
    - rewrite getitem_slice by lia. f_equal. f_equal. lia.
    - rewrite getitem_slice by lia. f_equal. f_equal. lia. }
  exists (gs ++ final_gates self). split.
  - rewrite interlaced_createCircuit_final.
    unfold TailAssignmentInterlaced.ansatz, cbind.
    rewrite Hinit, Hrun, app_assoc. reflexivity.
  - apply Forall2_app; [exact Heq | apply circuit_eqv_refl].
Qed.

Lemma interlaced_createCircuit_layers_witness :
  exists gs,
    TailAssignmentInterlaced.createCircuit fresh_circuit sampled_example
      [1 # 3; 1 # 5; 1 # 7] [rx_all 1]
    = (Ok ([] ++ gs), [] ++ gs)
    /\ circuit_eqv gs
         (flat_map (fun d => interlaced_layer_gates sampled_example
                               (nth (3 * d) [1 # 3; 1 # 5; 1 # 7] 0)
                               (nth (3 * d + 1) [1 # 3; 1 # 5; 1 # 7] 0)
                               (nth (3 * d + 2) [1 # 3; 1 # 5; 1 # 7] 0))
                   (range 0 (depth sampled_example))
          ++ final_gates sampled_example).
Proof.
  apply (interlaced_createCircuit_layers fresh_circuit sampled_example
           [1 # 3; 1 # 5; 1 # 7] [rx_all 1] []).
  - split; [repeat constructor | reflexivity].
  - reflexivity.
  - simpl. lia.
Defined.

Lemma third_bounds (n : nat) : (3 * (n / 3) <= n < 3 * (n / 3) + 3)%nat.
Proof.
  pose proof (Nat.div_mod_eq n 3) as H.
  pose proof (Nat.mod_upper_bound n 3) as H'. lia.
Qed.

(** With fewer than three angles per layer, the interlaced
    [createCircuit] raises [IndexError] after the [len(params) // 3]
    complete layers that the angles suffice for; no gate of the
    incomplete layer and no measurement is appended. *)
Theorem interlaced_createCircuit_short_params
  (initial_state : nat -> Circ unit) (self : QAOATailAssignment)
  (params : list Q) (qc qc0 : QuantumCircuit) :
  wf self ->
  initial_state (R self) qc = (Ok tt, qc0) ->
  (length params < 3 * depth self)%nat ->
  exists gs,
    TailAssignmentInterlaced.createCircuit initial_state self params qc
    = (Raise IndexError, qc0 ++ gs)
    /\ circuit_eqv gs
         (flat_map (fun d => interlaced_layer_gates self
                               (nth (3 * d) params 0)
                               (nth (3 * d + 1) params 0)
                               (nth (3 * d + 2) params 0))
                   (range 0 (length params / 3))).
Proof.
  intros Hwf Hinit Hlen.
  pose proof (third_bounds (length params)) as Hthird.
  set (k := (length params / 3)%nat) in *.
  assert (Hk : (k < depth self)%nat) by lia.
  destruct (for_layers
              (TailAssignmentInterlaced.layer self (slice_step 3 0 params)
                 (slice_step 3 1 params) (slice_step 3 2 params))
              (fun d => interlaced_layer_gates self
                          (nth (3 * d) params 0)
                          (nth (3 * d + 1) params 0)
                          (nth (3 * d + 2) params 0))
              (range 0 k)) with (qc := qc0) as [gs [Hrun Heq]].
  { intros d Hd qc1. apply in_range in Hd. apply interlaced_layer_run.
    - exact Hwf.
    - rewrite getitem_slice by lia. f_equal. f_equal. lia.
    - rewrite getitem_slice by lia. f_equal. f_equal. lia.
    - rewrite getitem_slice by lia. f_equal. f_equal. lia. }
  exists gs. split; [| exact Heq].
  rewrite interlaced_createCircuit_final.
  unfold TailAssignmentInterlaced.ansatz. unfold cbind at 1.
  rewrite Hinit. cbv zeta. rewrite (range_split k (depth self) Hk), for_app.
  unfold cbind at 1. rewrite Hrun. cbn [for_]. unfold cbind at 1.
  rewrite interlaced_layer_raises; [reflexivity |].
  right. right. apply getitem_slice_out; lia.
Qed.

Lemma interlaced_createCircuit_short_params_witness :
  exists gs,
    TailAssignmentInterlaced.createCircuit fresh_circuit sampled_example
      [1 # 3; 1 # 5] [rx_all 1]
    = (Raise IndexError, [] ++ gs)
    /\ circuit_eqv gs
         (flat_map (fun d => interlaced_layer_gates sampled_example
                               (nth (3 * d) [1 # 3; 1 # 5] 0)
                               (nth (3 * d + 1) [1 # 3; 1 # 5] 0)
                               (nth (3 * d + 2) [1 # 3; 1 # 5] 0))
                   (range 0 (length [1 # 3; 1 # 5] / 3))).
Proof.
  apply (interlaced_createCircuit_short_params fresh_circuit sampled_example
           [1 # 3; 1 # 5] [rx_all 1] []).
  - split; [repeat constructor | reflexivity].
  - reflexivity.
  - simpl. lia.
Defined.

(** ** From the measured integer to the assignment vector *)

Lemma list_ascii_append (s1 s2 : string) :
  list_ascii_of_string (s1 ++ s2)%string
  = list_ascii_of_string s1 ++ list_ascii_of_string s2.
Proof. induction s1 as [|c s1 IH]; cbn; [reflexivity | rewrite IH; reflexivity]. Qed.

Lemma bin_digits_chars (p : positive) (acc : string) :
  list_ascii_of_string (bin_digits p acc)
  = rev (lsb_digits p) ++ list_ascii_of_string acc.
Proof.
  revert acc. induction p as [p IH|p IH|]; intros acc;
    cbn [bin_digits lsb_digits rev].
  - rewrite IH, <- app_assoc. reflexivity.
  - rewrite IH, <- app_assoc. reflexivity.
  - reflexivity.
Qed.

Lemma nth_zero_chars (zs : list ascii) (r : nat) :
  Forall (fun c => c = "0"%char) zs -> nth r (map bit_value zs) 0 = 0.
Proof.
  intros H. revert r. induction H as [|c zs Hc Hzs IH]; intros [|r]; cbn [map nth];
    try reflexivity.
  - subst c. reflexivity.
  - apply IH.
Qed.

Lemma nth_lsb_digits (p : positive) (zs : list ascii) (r : nat) :
  Forall (fun c => c = "0"%char) zs ->
  nth r (map bit_value (lsb_digits p ++ zs)) 0
  = Q_of_bool (Pos.testbit_nat p r).
Proof.
  intros Hzs. revert r.
  induction p as [p IH|p IH|]; intros [|r];
    cbn [lsb_digits app map nth Pos.testbit_nat]; try reflexivity.
  - apply IH.
  - apply IH.
  - apply nth_zero_chars. exact Hzs.
Qed.

Lemma repeat_zero_chars (k : nat) :
  Forall (fun c => c = "0"%char) (repeat "0"%char k).
Proof. induction k; cbn; constructor; auto. Qed.

Lemma measured_length (n : nat) (key : N) :
  String.length (measured n key) = Nat.max n (binary_width key).
Proof.
  unfold measured, zfill. rewrite length_append, zeros_length.
  destruct key as [|p]; cbn [format_b binary_width].
  - cbn [String.length]. lia.
  - rewrite bin_digits_length. cbn [String.length]. lia.
Qed.

(** The string that the statistics build from a measured integer decodes
    back to it: entry [r] of its assignment vector is bit [r] of the
    integer, so qubit [r] carries the bit of weight [2^r].  The string has
    [R] characters, or the number of binary digits of the integer if that
    is more: [zfill] never truncates. *)
Theorem measured_bits (n : nat) (key : N) :
  (forall r, nth r (assignment (measured n key)) 0
             = Q_of_bool (N.testbit_nat key r))
  /\ String.length (measured n key) = Nat.max n (binary_width key).
Proof.
  split.
  - intros r. unfold assignment, measured, zfill.
    rewrite list_ascii_append, zeros_chars, rev_app_distr.
    destruct key as [|p]; cbn [format_b N.testbit_nat].
    + apply nth_zero_chars. apply Forall_app. split.
      * repeat constructor.
      * apply Forall_rev, repeat_zero_chars.
    + rewrite bin_digits_chars. cbn [list_ascii_of_string].
      rewrite app_nil_r, rev_involutive.
      apply nth_lsb_digits. apply Forall_rev, repeat_zero_chars.
  - apply measured_length.
Qed.

Lemma size_nat_lower (p : positive) (n : nat) :
  (2 ^ n <= Pos.to_nat p)%nat -> (n < Pos.size_nat p)%nat.
Proof.
  revert n. induction p as [p IH|p IH|]; intros [|n] H; cbn [Pos.size_nat];
    cbn [Nat.pow] in H; try lia.
  - rewrite Pos2Nat.inj_xI in H. apply -> Nat.succ_lt_mono. apply IH. lia.
  - rewrite Pos2Nat.inj_xO in H. apply -> Nat.succ_lt_mono. apply IH. lia.
  - rewrite Pos2Nat.inj_1 in H. pose proof (Nat.pow_nonzero 2 n). lia.
Qed.

Lemma cost_wrong_length (self : QAOATailAssignment) (b : string) :
  is_bitstring b = true -> String.length b <> R self ->
  cost self b = Raise ValueError.
Proof.
  intros Hb Hlen. unfold cost.
  rewrite (reversed_bits_assignment b Hb). cbn [rbind].
  unfold matmul_vv, matmul_mv. rewrite assignment_length. fold (R self).
  destruct (Nat.eqb (length (CR self)) (String.length b)); cbn [rbind];
    [| reflexivity].
  destruct (Nat.eqb_spec (R self) (String.length b)) as [H|H];
    [congruence | reflexivity].
Qed.

(** In sampled mode, a first measured integer that needs more than [R]
    binary digits makes [measurementStatistics] raise [ValueError]: its
    bit string is longer than the register and [cost] rejects it. *)
Theorem measurementStatistics_wide_key (self : QAOATailAssignment)
  (job : Job) (r : ExperimentResult) (rs : list ExperimentResult)
  (key : N) (count : nat) (cs : list (N * nat)) :
  statevector_backend self = false ->
  rows (FR self) <> [] ->
  results job = r :: rs ->
  counts r = Some ((key, count) :: cs) ->
  (2 ^ R self <= N.to_nat key)%nat ->
  measurementStatistics self job = Raise ValueError.
Proof.
  intros Hmode Hrows Hres Hcounts Hwide.
  rewrite (measurementStatistics_rows self job Hrows), Hmode.
  unfold measurementStatistics_counts. rewrite Hres.
  cbn [ms_results]. unfold data_counts. rewrite Hcounts.
  cbn [rbind ms_counts]. fold (measured (R self) key).
  rewrite cost_wrong_length; [reflexivity | |].
  - unfold measured, zfill.
    apply is_bitstring_append; [apply zeros_bitstring |].
    destruct key as [|p]; [reflexivity |].
    apply bin_digits_bitstring. reflexivity.
  - rewrite measured_length.
    destruct key as [|p].
    + cbn in Hwide. pose proof (Nat.pow_nonzero 2 (R self)). lia.
    + cbn [binary_width N.to_nat] in *.
      pose proof (size_nat_lower p (R self) Hwide). lia.
Qed.

Lemma measurementStatistics_wide_key_witness :
  measurementStatistics sampled_example wide_job_example = Raise ValueError.
Proof.
  apply (measurementStatistics_wide_key sampled_example wide_job_example
           {| shots := 10; counts := Some [(8%N, 10%nat)] |} [] 8%N 10%nat []).
  - reflexivity.
  - discriminate.
  - reflexivity.
  - reflexivity.
  - unfold R. simpl. lia.
Defined.

(** ** Measurement statistics from a statevector *)

Lemma mapM_cost (self : QAOATailAssignment) (strs : list string) :
  wf self ->
  Forall (fun s => is_bitstring s = true /\ String.length s = R self) strs ->
  exists cs,
    mapM (cost self) strs = Ok cs
    /\ Forall2 (fun c s => c == cost_formula self s) cs strs.
Proof.
  intros Hwf Hstrs. induction Hstrs as [|s strs [Hb Hl] Hstrs [cs [Hcs HF]]].
  - exists []. split; [reflexivity | constructor].
  - destruct (cost_formula_correct self s Hwf Hb Hl) as [c [Hc Hf]].
    exists (c :: cs). split.
    + cbn [mapM]. rewrite Hc. cbn [rbind]. rewrite Hcs. reflexivity.
    + constructor; assumption.
Qed.

Lemma dot_Forall2 {A} (f : A -> Q) (cs : list Q) (l : list A) (v : list Q) :
  Forall2 (fun c a => c == f a) cs l -> dot cs v == dot (map f l) v.
Proof.
  unfold dot. intros H. revert v.
  induction H as [|c a cs l Hc H IH]; intros [|p v];
    cbn [map mul_elementwise np_sum]; try reflexivity.
  rewrite IH, Hc. reflexivity.
Qed.

Lemma np_sum_flagged_Forall2 {A} (f : A -> Q) (cs : list Q) (l : list A)
  (ind : list bool) :
  Forall2 (fun c a => c == f a) cs l ->
  np_sum (flagged ind cs) == np_sum (flagged ind (map f l)).
Proof.
  intros H. revert ind.
  induction H as [|c a cs l Hc H IH]; intros [|i ind];
    cbn [map flagged np_sum]; try reflexivity.
  destruct i; cbn [np_sum]; rewrite IH; [rewrite Hc |]; reflexivity.
Qed.

Lemma ceil_of_probability (p : Q) :
  0 <= p <= 1 -> inject_Z (Qceiling p) == Q_of_bool (is_positive p).
Proof.
  intros [H0 H1]. unfold is_positive.
  pose proof (Qle_ceiling p) as Hup.
  pose proof (Qceiling_lt p) as Hlow.
  destruct (Qlt_le_dec 0 p) as [Hpos|Hneg]; cbn [Q_of_bool].
  - assert (Hc : Qceiling p = 1%Z).
    { assert (0 < Qceiling p)%Z.
      { rewrite Zlt_Qlt. change (inject_Z 0) with 0. lra. }
      assert (Qceiling p - 1 < 1)%Z.
      { rewrite Zlt_Qlt. change (inject_Z 1) with 1. lra. }
      lia. }
    rewrite Hc. reflexivity.
  - assert (Hc : Qceiling p = 0%Z).
    { assert (0 <= Qceiling p)%Z.
      { rewrite Zle_Qle. change (inject_Z 0) with 0. lra. }
      assert (Qceiling p - 1 < 0)%Z.
      { rewrite Zlt_Qlt. change (inject_Z 0) with 0. lra. }
      lia. }
    rewrite Hc. reflexivity.
Qed.

Lemma dot_ceil (cs probs : list Q) :
  Forall (fun p => 0 <= p <= 1) probs ->
  dot cs (np_ceil probs) == np_sum (flagged (map is_positive probs) cs).
Proof.
  unfold dot, np_ceil. intros H. revert cs.
  induction H as [|p probs Hp H IH]; intros [|c cs];
    cbn [map mul_elementwise flagged np_sum]; try reflexivity.
  rewrite IH, (ceil_of_probability p Hp).
  destruct (is_positive p); cbn [Q_of_bool np_sum]; ring.
Qed.

(** With a statevector backend, [measurementStatistics] returns the
    expectation [costs . probs] in the first entry of the expectation
    array and zeros in the others, no variance, and as best cost the sum
    (not the maximum) of the costs of all states of nonzero probability. *)
Theorem measurementStatistics_exact (self : QAOATailAssignment) (job : Job)
  (probs : list Q) (r : ExperimentResult) (rs : list ExperimentResult) :
  wf self ->
  statevector_backend self = true ->
  rows (FR self) <> [] ->
  state_strings self <> [] ->
  Forall (fun s => is_bitstring s = true /\ String.length s = R self)
         (state_strings self) ->
  statevector_probs job = Ok probs ->
  length probs = length (state_strings self) ->
  Forall (fun p => 0 <= p <= 1) probs ->
  results job = r :: rs ->
  exists E best,
    measurementStatistics self job
    = Ok (E :: repeat 0 (length rs), None, fin best)
    /\ E == dot (map (cost_formula self) (state_strings self)) probs
    /\ best == np_sum (flagged (map is_positive probs)
                               (map (cost_formula self) (state_strings self))).
Proof.
  intros Hwf Hmode Hrows Hne Hstrs Hprobs Hlen Hrange Hres.
  destruct (mapM_cost self _ Hwf Hstrs) as [cs [Hcs HF]].
  assert (Hlencs : length cs = length probs).
  { rewrite (Forall2_length HF). congruence. }
  exists (dot cs probs), (dot cs (np_ceil probs)). split.
  - rewrite (measurementStatistics_rows self job Hrows), Hmode.
    unfold measurementStatistics_statevector. rewrite Hprobs. cbn [rbind].
    rewrite vectorize_nonempty by exact Hne. rewrite Hcs. cbn [rbind].
    unfold matmul_vv, np_ceil. rewrite length_map, Hlencs, Nat.eqb_refl.
    cbn [rbind py_max]. rewrite Hres. reflexivity.
  - split.
    + apply dot_Forall2. exact HF.
    + rewrite (dot_ceil cs probs Hrange).
      apply np_sum_flagged_Forall2. exact HF.
Qed.

Lemma measurementStatistics_exact_witness :
  exists E best,
    measurementStatistics exact_example statevector_job_example
    = Ok (E :: repeat 0 (length (@nil ExperimentResult)), None, fin best)
    /\ E == dot (map (cost_formula exact_example) (state_strings exact_example))
                [0; 1 # 2; 0; 0; 0; 0; 1 # 4; 1 # 4]
    /\ best == np_sum (flagged (map is_positive [0; 1 # 2; 0; 0; 0; 0; 1 # 4; 1 # 4])
                               (map (cost_formula exact_example)
                                    (state_strings exact_example))).
Proof.
  apply (measurementStatistics_exact exact_example statevector_job_example
           [0; 1 # 2; 0; 0; 0; 0; 1 # 4; 1 # 4]
           {| shots := 1; counts := None |} []).
  - split; [repeat constructor | reflexivity].
  - reflexivity.
  - discriminate.
  - discriminate.
  - repeat constructor.
  - reflexivity.
  - reflexivity.
  - repeat constructor; unfold Qle; simpl; lia.
  - reflexivity.
Defined.

(** With a statevector backend and a result without any result block,
    [measurementStatistics] raises [IndexError] when it stores the
    expectation, although the statevector holds all the data it needs. *)
Theorem measurementStatistics_exact_no_block (self : QAOATailAssignment)
  (job : Job) (probs : list Q) :
  wf self ->
  statevector_backend self = true ->
  rows (FR self) <> [] ->
  state_strings self <> [] ->
  Forall (fun s => is_bitstring s = true /\ String.length s = R self)
         (state_strings self) ->
  statevector_probs job = Ok probs ->
  length probs = length (state_strings self) ->
  results job = [] ->
  measurementStatistics self job = Raise IndexError.
Proof.
  intros Hwf Hmode Hrows Hne Hstrs Hprobs Hlen Hres.
  destruct (mapM_cost self _ Hwf Hstrs) as [cs [Hcs HF]].
  assert (Hlencs : length cs = length probs).
  { rewrite (Forall2_length HF). congruence. }
  rewrite (measurementStatistics_rows self job Hrows), Hmode.
  unfold measurementStatistics_statevector. rewrite Hprobs. cbn [rbind].
  rewrite vectorize_nonempty by exact Hne. rewrite Hcs. cbn [rbind].
  unfold matmul_vv, np_ceil. rewrite length_map, Hlencs, Nat.eqb_refl.
  cbn [rbind py_max]. rewrite Hres. reflexivity.
Qed.

Lemma measurementStatistics_exact_no_block_witness :
  measurementStatistics exact_example no_block_job_example = Raise IndexError.
Proof.
  apply (measurementStatistics_exact_no_block exact_example
           no_block_job_example [0; 1 # 2; 0; 0; 0; 0; 1 # 4; 1 # 4]).
  - split; [repeat constructor | reflexivity].
  - reflexivity.
  - discriminate.
  - discriminate.
  - repeat constructor.
  - reflexivity.
  - reflexivity.
  - reflexivity.
Defined.

(** With a statevector backend, [successProbability] raises [ValueError]
    when the object has no state strings, and when the number of
    probabilities differs from the number of state strings. *)
Theorem successProbability_exact_shape (g : Globals)
  (self : QAOATailAssignment) (job : Job) (probs : list Q) :
  wf self ->
  statevector_backend self = true ->
  statevector_probs job = Ok probs ->
  Forall (fun s => is_bitstring s = true /\ String.length s = R self)
         (state_strings self) ->
  state_strings self = [] \/ length probs <> length (state_strings self) ->
  successProbability g self job = Raise ValueError.
Proof.
  intros Hwf Hmode Hprobs Hstrs Hbad.
  unfold successProbability. rewrite Hmode.
  unfold successProbability_statevector. rewrite Hprobs. cbn [rbind].
  destruct (state_strings self) as [|s strs] eqn:Hss; [reflexivity |].
  destruct Hbad as [Hbad|Hbad]; [discriminate |].
  assert (Htot : forall s, is_bitstring s = true /\ String.length s = R self ->
                           exists t, is_solution self s = Ok t).
  { intros s' [Hb Hl]. eexists. apply is_solution_eval; assumption. }
  destruct (mapM_total (is_solution self) _ (s :: strs) Htot Hstrs)
    as [ind [Hind Hlenind]].
  unfold vectorize. rewrite Hind. cbn [rbind].
  unfold matmul_vv. rewrite length_map, Hlenind.
  destruct (Nat.eqb_spec (length (s :: strs)) (length probs)) as [H|H];
    [congruence | reflexivity].
Qed.

Lemma successProbability_exact_shape_witness :
  successProbability module_globals exact_example
    {| results := []; statevector_probs := Ok [1] |}
  = Raise ValueError.
Proof.
  apply (successProbability_exact_shape module_globals exact_example
           {| results := []; statevector_probs := Ok [1] |} [1]).
  - split; [repeat constructor | reflexivity].
  - reflexivity.
  - reflexivity.
  - repeat constructor.
  - right. discriminate.
Defined.

Lemma successProbability_counts_bound_witness :
  exists v,
    successProbability (globals_of sampled_example) sampled_example job_example
    = Ok v
    /\ v == solution_fraction_job sampled_example job_example.
Proof.
  apply (successProbability_counts_bound sampled_example job_example).
  - split; [repeat constructor | reflexivity].
  - reflexivity.
  - unfold R. simpl. lia.
  - repeat constructor. exists [(1%N, 7%nat); (6%N, 3%nat)].
    split; [reflexivity |].
    repeat constructor; simpl; lia.
Defined.
